(** * Walk-forward ARIMA grid search: a shallow embedding

    The notebook defines two functions:

    - [evaluate_arima_models X arima_order]: splits the series at
      [int(len(X)*0.66)], copies the training prefix into a list
      [history], and for every position of the test suffix fits the
      external model on [history], records its one-step forecast and
      appends the true observation to [history]; it returns
      [rmse(test, predictions)].
    - [evaluate_models dataset p_values d_values q_values]: coerces the
      dataset with [astype('float32')], runs three nested loops over the
      candidate values, calls the evaluator inside [try: ... except:
      continue], keeps the lowest score seen, prints a line per
      improvement and one final line.

    Python objects live in a heap of buffers, so that aliasing and
    mutation are explicit; exceptions are an outcome of the monad;
    [print] appends to a list of lines; every call of the evaluator and
    of the external model is recorded in a trace.  What the notebook
    imports from statsmodels is left open: the forecast of a fitted ARIMA
    model and the mean of squares under [rmse] are the variables of the
    section. *)

From Stdlib Require Import ZArith Floats String List Lia Bool.
From stdpp Require Import base list.
Import ListNotations.

#[local] Open Scope nat_scope.
#[local] Set Warnings "-inexact-float".

(** ** Numbers *)

(** Python's conversion of an int to a float: correctly rounded. *)
Definition float_of_Z (z : Z) : float :=
  SF2Prim (binary_normalize prec emax z 0 false).

(** Python's [int(f)] on a float: truncation toward zero.  The only
    call site applies it to [len(X)*0.66]; a length is below [2^63], so
    that product is finite.  Infinities and NaN (where Python raises)
    are mapped to 0 and never reached from a length. *)
Definition int_of_float (f : float) : Z :=
  match Prim2SF f with
  | S754_finite s m e =>
      let a := match e with
               | Z0 => Zpos m
               | Zpos _ => (Zpos m * 2 ^ e)%Z
               | Zneg p => (Zpos m / 2 ^ Zpos p)%Z
               end in
      if s then (- a)%Z else a
  | _ => 0%Z
  end.

(** A float that is a number and not below zero: a zero, a positive
    finite float or plus infinity. *)
Definition nonneg_number (f : spec_float) : Prop :=
  match f with
  | S754_zero _ | S754_finite false _ _ | S754_infinity false => True
  | _ => False
  end.

(** [int(n*0.66)]: the integer becomes a float, is multiplied by the
    binary64 nearest to 0.66, and the product is truncated. *)
Definition split_index (z : Z) : Z :=
  int_of_float (float_of_Z z * 0.66)%float.

(** [train_size = int(len(X)*0.66)], on the length. *)
Definition train_size (n : nat) : nat :=
  Z.to_nat (split_index (Z.of_nat n)).

(** [split_index] is the floor of [66 * z / 100] on the [fuel] integers
    from [z] on. *)
Fixpoint floor_checked (fuel : nat) (z : Z) : bool :=
  match fuel with
  | O => true
  | S fuel' => (split_index z =? 66 * z / 100)%Z && floor_checked fuel' (z + 1)
  end.

(** [astype('float32')] on one element: rounding to binary32 (24 bits of
    precision, maximal exponent 128), kept in a binary64. *)
Definition astype_float32 (x : float) : float :=
  match Prim2SF x with
  | S754_finite s m e => SF2Prim (binary_round 24 128 s m e)
  | _ => x
  end.

(** ** Python values that are printed or returned *)

(** A hyperparameter triple [(p, d, q)]. *)
Definition order : Type := nat * nat * nat.

Inductive pyval : Type :=
| PyNone
| PyFloat (x : float)
| PyOrder (o : order)
| PyPair (a b : pyval).

(** [best_cfg] is [None] or a triple. *)
Definition py_cfg (c : option order) : pyval :=
  match c with
  | Some o => PyOrder o
  | None => PyNone
  end.

(** ** The world: heap, standard output, trace *)

Definition loc : Type := nat.

(** A pandas Series: a window on a buffer.  Slicing a Series gives
    a Series on the same buffer. *)
Record series : Type := Series { base : loc; start : nat; stop : nat }.

(** One printed line, [fmt % args]. *)
Record line : Type := Line { fmt : string; args : list pyval }.

Inductive event : Type :=
| EvalCall (o : order)
| FitCall (history : list float) (o : order).

Record world : Type := World {
  heap : list (list float);
  stdout : list line;
  trace : list event }.

Inductive exn : Type :=
| IndexError
| ModelError.

Inductive outcome (A : Type) : Type :=
| Ok (a : A)
| Raise (e : exn).
Arguments Ok {A} a.
Arguments Raise {A} e.

Definition M (A : Type) : Type := world -> outcome A * world.

Definition ret {A} (a : A) : M A := fun w => (Ok a, w).

Definition bind {A B} (m : M A) (k : A -> M B) : M B :=
  fun w => match m w with
           | (Ok a, w') => k a w'
           | (Raise e, w') => (Raise e, w')
           end.

Definition raise {A} (e : exn) : M A := fun w => (Raise e, w).

(** [try: m except: handler]: a bare [except] catches every exception;
    what [m] did to the world before raising stays done. *)
Definition try_except {A} (m : M A) (handler : M A) : M A :=
  fun w => match m w with
           | (Ok a, w') => (Ok a, w')
           | (Raise _, w') => handler w'
           end.

Declare Scope py_scope.
Delimit Scope py_scope with py.
Notation "x <- m ;; k" := (bind m (fun x => k))
  (at level 100, m at next level, right associativity) : py_scope.
Notation "m ;; k" := (bind m (fun _ => k))
  (at level 100, right associativity) : py_scope.
#[local] Open Scope py_scope.

(** A new buffer, at the first free location. *)
Definition alloc (xs : list float) : M loc :=
  fun w => (Ok (length (heap w)),
            World (heap w ++ [xs]) (stdout w) (trace w)).

Definition load (l : loc) : M (list float) :=
  fun w => match heap w !! l with
           | Some xs => (Ok xs, w)
           | None => (Raise IndexError, w)
           end.

(** [l.append(x)] *)
Definition append (l : loc) (x : float) : M unit :=
  fun w => match heap w !! l with
           | Some xs => (Ok tt, World (<[l := xs ++ [x]]> (heap w)) (stdout w) (trace w))
           | None => (Raise IndexError, w)
           end.

Definition print (f : string) (a : list pyval) : M unit :=
  fun w => (Ok tt, World (heap w) (stdout w ++ [Line f a]) (trace w)).

(** Bookkeeping, not an effect of the code: the calls are recorded so
    that theorems can speak about them. *)
Definition record (e : event) : M unit :=
  fun w => (Ok tt, World (heap w) (stdout w) (trace w ++ [e])).

(** The values of a Series: its window on its buffer. *)
Definition window (s : series) (buf : list float) : list float :=
  take (stop s - start s) (drop (start s) buf).

Definition values (s : series) : M (list float) :=
  buf <- load (base s) ;;
  ret (window s buf).

(** [len(s)] *)
Definition len (s : series) : M nat :=
  xs <- values s ;;
  ret (length xs).

(** [s[lo:hi]]: both bounds are clipped to the length, and the result is
    a Series on the same buffer. *)
Definition slice (s : series) (lo hi : nat) : series :=
  let n := stop s - start s in
  let lo' := Nat.min lo n in
  let hi' := Nat.max lo' (Nat.min hi n) in
  Series (base s) (start s + lo') (start s + hi').

(** [s[lo:]] *)
Definition slice_from (s : series) (lo : nat) : series :=
  slice s lo (stop s - start s).

(** [s[t]], by position (the notebook's series carry a date index, for
    which an integer key is a position). *)
Definition getitem (s : series) (t : nat) : M float :=
  xs <- values s ;;
  match xs !! t with
  | Some x => ret x
  | None => raise IndexError
  end.

(** [for x in l: body x] *)
Fixpoint for_each {A} (l : list A) (body : A -> M unit) : M unit :=
  match l with
  | [] => ret tt
  | x :: l' => body x ;; for_each l' body
  end.

(** [for x in l: acc = body acc x], for a loop that rebinds locals. *)
Fixpoint for_fold {A S} (l : list A) (acc : S) (body : S -> A -> M S) : M S :=
  match l with
  | [] => ret acc
  | x :: l' => acc' <- body acc x ;; for_fold l' acc' body
  end.

(** ** Collaborators and data for the examples *)

(** A persistence model: the forecast is the last observation plus [d];
    the fit fails when [p] exceeds 1 or there is no observation. *)
Definition persistence (history : list float) (o : order) : option float :=
  let '(p, d, _) := o in
  if 1 <? p then None
  else match last history with
       | Some x => Some (x + float_of_Z (Z.of_nat d))%float
       | None => None
       end.

(** A model whose fit never succeeds. *)
Definition no_fit (history : list float) (o : order) : option float := None.

(** The mean of the squared differences, summed from left to right. *)
Definition mean_squares (expected predicted : list float) : float :=
  let squares := zip_with (fun a b => ((a - b) * (a - b))%float) expected predicted in
  (fold_left PrimFloat.add squares 0 / float_of_Z (Z.of_nat (length expected)))%float.

(** The persistence model with a fit that fails on histories of [limit]
    observations or more. *)
Definition brittle (limit : nat) (history : list float) (o : order) : option float :=
  if limit <=? length history then None else persistence history o.

(** The series [1, 2, ..., 10] of the specification's example, alone in
    the heap. *)
Definition one_to_ten : list float :=
  [1; 2; 3; 4; 5; 6; 7; 8; 9; 10]%float.

Definition demo_world : world := World [one_to_ten] [] [].

Definition demo_series : series := Series 0 0 10.

(** A series with a missing value, NaN, in its test suffix, alone in the
    heap. *)
Definition with_nan : list float :=
  [1; 2; 3; 4; 5; 6; 7; nan; 9; 10]%float.

Definition nan_world : world := World [with_nan] [] [].

(** A series of no observation, on the same buffer. *)
Definition no_series : series := Series 0 0 0.

(** A world whose series agrees with [one_to_ten] on its first 8
    observations only. *)
Definition other_world : world :=
  World [[1; 2; 3; 4; 5; 6; 7; 8; 90; 100]%float] [] [].

Section GridSearch.

(** [ARIMA(history, order).fit().forecast()[0][0]]: the one-step forecast
    of the model fitted on [history], or a failure of the fit.  It reads
    the values of [history] and nothing else. *)
Variable ARIMA : list float -> order -> option float.

(** [statsmodels.tools.eval_measures.mse], the mean of the squared
    differences, and [rmse], which statsmodels defines as its square
    root. *)
Variable mse : list float -> list float -> float.

Definition rmse (expected predicted : list float) : float :=
  sqrt (mse expected predicted).

Definition fit_forecast (history : loc) (arima_order : order) : M float :=
  h <- load history ;;
  record (FitCall h arima_order) ;;
  match ARIMA h arima_order with
  | Some yhat => ret yhat
  | None => raise ModelError
  end.

(** The body of the walk-forward loop, at step [t]. *)
Definition walk_step (history predictions : loc) (test : series)
    (arima_order : order) (t : nat) : M unit :=
  yhat <- fit_forecast history arima_order ;;
  append predictions yhat ;;
  x <- getitem test t ;;
  append history x.

Definition evaluate_arima_models (X : series) (arima_order : order) : M float :=
  record (EvalCall arima_order) ;;
  n <- len X ;;
  let train_size := train_size n in
  let train := slice X 0 train_size in
  let test := slice_from X train_size in
  xs <- values train ;;
  history <- alloc xs ;;
  predictions <- alloc [] ;;
  m <- len test ;;
  for_each (seq 0 m) (walk_step history predictions test arima_order) ;;
  expected <- values test ;;
  predicted <- load predictions ;;
  ret (rmse expected predicted).

(** The Best Result: [(best_score, best_cfg)]. *)
Definition best : Type := float * option order.

Definition improve_fmt : string := "ARIMA order: %s and RMSE = %.3f".
Definition final_fmt : string := "Best ARIMA order %s and RMSE = %.3f".

(** The body of the innermost loop. *)
Definition try_candidate (dataset : series) (b : best) (order : order) : M best :=
  try_except
    (err <- evaluate_arima_models dataset order ;;
     if (err <? fst b)%float then
       print improve_fmt [PyOrder order; PyFloat err] ;;
       ret (err, Some order)
     else ret b)
    (ret b).

Definition evaluate_models (dataset : series) (p_values d_values q_values : list nat)
  : M pyval :=
  xs <- values dataset ;;
  buf <- alloc (map astype_float32 xs) ;;
  let dataset := Series buf 0 (length xs) in
  b <- for_fold p_values (infinity, None) (fun b p =>
         for_fold d_values b (fun b d =>
           for_fold q_values b (fun b q =>
             try_candidate dataset b (p, d, q)))) ;;
  print final_fmt [py_cfg (snd b); PyFloat (fst b)] ;;
  ret PyNone.

(** ** What the loops compute, on values

    The functions below follow the two loops on the values alone; the
    lemmas of the next part show that the code computes them. *)

(** The walk-forward loop from the state [(history, predictions)] over
    the remaining test observations: whether it completes, and the two
    lists when it stops. *)
Fixpoint walk_forward (o : order) (test history predictions : list float)
  : outcome unit * list float * list float :=
  match test with
  | [] => (Ok tt, history, predictions)
  | x :: rest =>
      match ARIMA history o with
      | Some yhat => walk_forward o rest (history ++ [x]) (predictions ++ [yhat])
      | None => (Raise ModelError, history, predictions)
      end
  end.

(** The calls of the model during that loop. *)
Fixpoint walk_trace (o : order) (test history : list float) : list event :=
  match test with
  | [] => []
  | x :: rest =>
      FitCall history o ::
      match ARIMA history o with
      | Some _ => walk_trace o rest (history ++ [x])
      | None => []
      end
  end.

(** One evaluation on the values [xs] of the series. *)
Definition run_walk (xs : list float) (o : order)
  : outcome unit * list float * list float :=
  let k := train_size (length xs) in
  walk_forward o (drop k xs) (take k xs) [].

Definition evaluate_on (xs : list float) (o : order) : outcome float :=
  match run_walk xs o with
  | (Ok _, _, predictions) => Ok (rmse (drop (train_size (length xs)) xs) predictions)
  | (Raise e, _, _) => Raise e
  end.

Definition evaluate_trace (xs : list float) (o : order) : list event :=
  let k := train_size (length xs) in
  EvalCall o :: walk_trace o (drop k xs) (take k xs).

(** The candidates in the order of the three nested loops. *)
Definition candidates (p_values d_values q_values : list nat) : list order :=
  flat_map (fun p => flat_map (fun d => map (fun q => (p, d, q)) q_values) d_values)
    p_values.

(** One step of the search on the Best Result. *)
Definition update (xs : list float) (b : best) (o : order) : best :=
  match evaluate_on xs o with
  | Ok err => if (err <? fst b)%float then (err, Some o) else b
  | Raise _ => b
  end.

(** The Best Result after the candidates [l], from [b]. *)
Definition best_after (xs : list float) (l : list order) (b : best) : best :=
  fold_left (update xs) l b.

(** The lines printed while the candidates [l] are tried, from [b]. *)
Fixpoint improvements (xs : list float) (l : list order) (b : best) : list line :=
  match l with
  | [] => []
  | o :: l' =>
      match evaluate_on xs o with
      | Ok err =>
          if (err <? fst b)%float
          then Line improve_fmt [PyOrder o; PyFloat err] :: improvements xs l' (err, Some o)
          else improvements xs l' b
      | Raise _ => improvements xs l' b
      end
  end.

Definition final_line (b : best) : line :=
  Line final_fmt [py_cfg (snd b); PyFloat (fst b)].

(** [o], at position [i] of [l], evaluates to [e]; no candidate of [l]
    evaluates to less, and none before position [i] to as much. *)
Definition first_best (xs : list float) (l : list order) (i : nat) (o : order)
    (e : float) : Prop :=
  l !! i = Some o /\ evaluate_on xs o = Ok e /\
  (forall j o' e', l !! j = Some o' -> evaluate_on xs o' = Ok e' ->
     (e' <? e)%float = false) /\
  (forall j o' e', j < i -> l !! j = Some o' -> evaluate_on xs o' = Ok e' ->
     (e' =? e)%float = false /\ e' <> e).

(** The candidates whose evaluation a trace records, in order. *)
Definition evaluated (tr : list event) : list order :=
  omap (fun ev => match ev with EvalCall o => Some o | FitCall _ _ => None end) tr.

(** The form of what a search reports: the value it returns and the
    format of the last line it printed. *)
Definition report_form (r : outcome pyval * world) : outcome pyval * option string :=
  (fst r, fmt <$> last (stdout (snd r))).

(** The trace of a search over the candidates [l]. *)
Definition search_trace (xs : list float) (l : list order) : list event :=
  flat_map (evaluate_trace xs) l.

(** The lists ([history], [predictions]) each evaluation leaves behind. *)
Definition leftovers (xs : list float) (l : list order) : list (list float) :=
  flat_map (fun o => let '(_, hs, ps) := run_walk xs o in [hs; ps]) l.

(** The histories the model was fitted on, as a trace records them. *)
Definition fitted (tr : list event) : list (list float) :=
  omap (fun ev => match ev with FitCall h _ => Some h | EvalCall _ => None end) tr.

(** The candidates of [l] that improve on the Best Result when their turn
    comes, each with its error, from [b]. *)
Fixpoint improving (xs : list float) (l : list order) (b : best)
  : list (order * float) :=
  match l with
  | [] => []
  | o :: l' =>
      match evaluate_on xs o with
      | Ok err =>
          if (err <? fst b)%float
          then (o, err) :: improving xs l' (err, Some o)
          else improving xs l' b
      | Raise _ => improving xs l' b
      end
  end.

(** Each error of [es] is strictly below the one before it, the first
    strictly below [bound]. *)
Fixpoint descending (bound : float) (es : list float) : Prop :=
  match es with
  | [] => True
  | e :: es' => (e <? bound)%float = true /\ descending e es'
  end.

(** The line printed for an improving candidate. *)
Definition improve_line (oe : order * float) : line :=
  Line improve_fmt [PyOrder (fst oe); PyFloat (snd oe)].

(** ** Floats: the order behind [<], and the sign of a square root *)

Lemma SFltb_trans (a b c : spec_float) :
  SFltb a b = true -> SFltb b c = true -> SFltb a c = true.
Proof.
  unfold SFltb, SFcompare.
  destruct a as [sa | sa | | sa ma ea], b as [sb | sb | | sb mb eb],
    c as [sc | sc | | sc mc ec];
    repeat match goal with s : bool |- _ => destruct s end;
    try discriminate; try reflexivity.
  all: change (Pos.compare_cont Eq) with Pos.compare.
  all: destruct (Z.compare_spec ea eb), (Z.compare_spec eb ec), (Z.compare_spec ea ec);
    try discriminate; try reflexivity; try lia.
  all: destruct (Pos.compare_spec ma mb), (Pos.compare_spec mb mc),
    (Pos.compare_spec ma mc); try discriminate; try reflexivity; try lia.
Qed.

Lemma SFltb_eqb (a b c : spec_float) :
  SFeqb a b = true -> SFltb b c = true -> SFltb a c = true.
Proof.
  unfold SFltb, SFeqb, SFcompare.
  destruct a as [sa | sa | | sa ma ea], b as [sb | sb | | sb mb eb],
    c as [sc | sc | | sc mc ec];
    repeat match goal with s : bool |- _ => destruct s end;
    try discriminate; try reflexivity.
  all: change (Pos.compare_cont Eq) with Pos.compare.
  all: destruct (Z.compare_spec ea eb), (Z.compare_spec eb ec), (Z.compare_spec ea ec);
    try discriminate; try reflexivity; try lia.
  all: destruct (Pos.compare_spec ma mb), (Pos.compare_spec mb mc),
    (Pos.compare_spec ma mc); try discriminate; try reflexivity; try lia.
Qed.

Lemma SFltb_irrefl (a : spec_float) : SFltb a a = false.
Proof.
  unfold SFltb, SFcompare.
  destruct a as [s | s | | s m e]; try destruct s; try reflexivity.
  all: change (Pos.compare_cont Eq) with Pos.compare.
  all: by rewrite Z.compare_refl, Pos.compare_refl.
Qed.

Lemma ltb_irrefl (x : float) : (x <? x)%float = false.
Proof. rewrite ltb_spec. apply SFltb_irrefl. Qed.

(** [<] on floats is transitive, and respects [==] on its left. *)
Lemma ltb_trans (x y z : float) :
  (x <? y)%float = true -> (y <? z)%float = true -> (x <? z)%float = true.
Proof. rewrite !ltb_spec. apply SFltb_trans. Qed.

Lemma ltb_eqb (x y z : float) :
  (x =? y)%float = true -> (y <? z)%float = true -> (x <? z)%float = true.
Proof. rewrite !ltb_spec, FloatAxioms.eqb_spec. apply SFltb_eqb. Qed.

Lemma shr_1_nonneg (mrs : shr_record) :
  (0 <= shr_m mrs)%Z -> (0 <= shr_m (shr_1 mrs))%Z.
Proof.
  destruct mrs as [m r s]. simpl.
  destruct m as [| [p | p |] | p]; simpl; lia.
Qed.

Lemma iter_pos_invariant {A} (f : A -> A) (P : A -> Prop) :
  (forall x, P x -> P (f x)) -> forall p x, P x -> P (SpecFloat.iter_pos f p x).
Proof.
  intros Hf. induction p as [p IH | p IH |]; intros x Hx; simpl; auto.
Qed.

Lemma shr_fexp_nonneg (prec emax m e : Z) (l : location) :
  (0 <= m)%Z -> (0 <= shr_m (fst (shr_fexp prec emax m e l)))%Z.
Proof.
  intros Hm. unfold shr_fexp, shr.
  assert (H0 : (0 <= shr_m (shr_record_of_loc m l))%Z).
  { destruct l as [| []]; exact Hm. }
  destruct (fexp prec emax (Zdigits2 m + e) - e)%Z; simpl; auto.
  apply (iter_pos_invariant shr_1 (fun mrs => (0 <= shr_m mrs)%Z));
    auto using shr_1_nonneg.
Qed.

Lemma round_nearest_even_nonneg (m : Z) (l : location) :
  (0 <= m)%Z -> (0 <= round_nearest_even m l)%Z.
Proof.
  intros Hm. destruct l as [| []]; simpl; try lia.
  destruct (Z.even m); lia.
Qed.

Lemma binary_round_aux_nonneg (prec emax m e : Z) (l : location) :
  (0 <= m)%Z -> nonneg_number (binary_round_aux prec emax false m e l).
Proof.
  intros Hm. unfold binary_round_aux.
  pose proof (shr_fexp_nonneg prec emax m e l Hm) as H1.
  destruct (shr_fexp prec emax m e l) as [mrs' e']. simpl in H1.
  pose proof (shr_fexp_nonneg prec emax _ e' loc_Exact
                (round_nearest_even_nonneg _ (loc_of_shr_record mrs') H1)) as H2.
  destruct (shr_fexp prec emax _ e' loc_Exact) as [mrs'' e'']. simpl in H2.
  destruct (shr_m mrs'') as [| p | p]; simpl; try lia; auto.
  destruct (e'' <=? emax - prec)%Z; simpl; auto.
Qed.

Lemma SFsqrt_nonneg (prec emax : Z) (x : spec_float) :
  nonneg_number x -> nonneg_number (SFsqrt prec emax x).
Proof.
  destruct x as [s | s | | s m e]; simpl; auto.
  - destruct s; auto.
  - destruct s; [tauto |]. intros _.
    unfold SFsqrt_core_binary.
    set (m' := match (_ - _)%Z with Z0 => _ | Zpos _ => _ | Zneg _ => _ end).
    pose proof (Z.sqrtrem_sqrt m') as Hq.
    destruct (Z.sqrtrem m') as [q r]. simpl in Hq.
    apply binary_round_aux_nonneg. subst q. apply Z.sqrt_nonneg.
Qed.

Lemma nonneg_number_leb (x : float) :
  (0 <=? x)%float = true <-> nonneg_number (Prim2SF x).
Proof.
  rewrite leb_spec. change (Prim2SF 0) with (S754_zero false).
  unfold SFleb, SFcompare, nonneg_number.
  destruct (Prim2SF x) as [s | s | | s m e]; try destruct s; simpl;
    intuition congruence.
Qed.

(** The square root of a non-negative float is a non-negative float. *)
Lemma sqrt_nonneg (x : float) :
  (0 <=? x)%float = true -> (0 <=? sqrt x)%float = true.
Proof.
  rewrite !nonneg_number_leb, sqrt_spec. apply SFsqrt_nonneg.
Qed.

Lemma SFsqrt_sign (prec emax : Z) (x : spec_float) :
  SFsqrt prec emax x = S754_nan \/ nonneg_number (SFsqrt prec emax x).
Proof.
  destruct x as [s | [|] | | [|] m e]; try (by left); try (by right).
  right. by apply (SFsqrt_nonneg prec emax (S754_finite false m e)).
Qed.

(** No square root of a float is below zero: it is NaN or non-negative. *)
Lemma sqrt_not_negative (x : float) : (sqrt x <? 0)%float = false.
Proof.
  rewrite ltb_spec, sqrt_spec. change (Prim2SF 0) with (S754_zero false).
  unfold SF64sqrt.
  destruct (SFsqrt_sign prec emax (Prim2SF x)) as [-> | Hpos]; [done |].
  destruct (SFsqrt prec emax (Prim2SF x)) as [s | [|] | | [|] m e]; done.
Qed.

(** A square root that is a number is not below zero. *)
Lemma sqrt_number_nonneg (x : float) :
  (sqrt x =? sqrt x)%float = true -> (0 <=? sqrt x)%float = true.
Proof.
  rewrite FloatAxioms.eqb_spec, nonneg_number_leb, sqrt_spec. unfold SF64sqrt.
  destruct (SFsqrt_sign prec emax (Prim2SF x)) as [-> | Hpos]; done.
Qed.

(** ** The heap around the two fresh lists *)

Lemma lookup_fresh0 {A} (h : list A) (a b : A) :
  (h ++ [a; b]) !! length h = Some a.
Proof. by rewrite list_lookup_middle. Qed.

Lemma lookup_fresh1 {A} (h : list A) (a b : A) :
  (h ++ [a; b]) !! S (length h) = Some b.
Proof.
  rewrite lookup_app_r by lia.
  by replace (S (length h) - length h) with 1 by lia.
Qed.

Lemma insert_fresh0 {A} (h : list A) (a a' b : A) :
  <[length h := a']> (h ++ [a; b]) = h ++ [a'; b].
Proof.
  rewrite insert_app_r_alt by lia.
  by rewrite Nat.sub_diag.
Qed.

Lemma insert_fresh1 {A} (h : list A) (a b b' : A) :
  <[S (length h) := b']> (h ++ [a; b]) = h ++ [a; b'].
Proof.
  rewrite insert_app_r_alt by lia.
  by replace (S (length h) - length h) with 1 by lia.
Qed.

(** ** Slices are the Python slices of the values *)

Lemma window_slice (s : series) (lo hi : nat) (buf : list float) :
  window (slice s lo hi) buf = take (hi - lo) (drop lo (window s buf)).
Proof.
  unfold window, slice; simpl.
  set (n := stop s - start s).
  rewrite skipn_firstn_comm, take_take, drop_drop.
  destruct (Nat.le_gt_cases lo n) as [Hlo | Hlo].
  - rewrite (Nat.min_l lo n) by lia.
    f_equal; lia.
  - rewrite (Nat.min_r lo n) by lia.
    replace (Nat.min (hi - lo) (n - lo)) with 0 by lia.
    replace (start s + Nat.max n (Nat.min hi n) - (start s + n)) with 0 by lia.
    reflexivity.
Qed.

Lemma window_train (s : series) (k : nat) (buf : list float) :
  window (slice s 0 k) buf = take k (window s buf).
Proof. rewrite window_slice. simpl. by rewrite Nat.sub_0_r. Qed.

Lemma window_test (s : series) (k : nat) (buf : list float) :
  window (slice_from s k) buf = drop k (window s buf).
Proof.
  unfold slice_from. rewrite window_slice.
  apply take_ge. rewrite length_drop.
  unfold window. rewrite length_take. lia.
Qed.

(** ** Running the primitives *)

Lemma run_bind {A B} (m : M A) (k : A -> M B) (w : world) :
  bind m k w = match m w with
               | (Ok a, w') => k a w'
               | (Raise e, w') => (Raise e, w')
               end.
Proof. reflexivity. Qed.

Lemma load_run (l : loc) (h : list (list float)) out tr (xs : list float) :
  h !! l = Some xs -> load l (World h out tr) = (Ok xs, World h out tr).
Proof. intros H. unfold load. cbn [heap]. by rewrite H. Qed.

Lemma append_run (l : loc) (x : float) (h : list (list float)) out tr (xs : list float) :
  h !! l = Some xs ->
  append l x (World h out tr) = (Ok tt, World (<[l := xs ++ [x]]> h) out tr).
Proof. intros H. unfold append. cbn [heap]. by rewrite H. Qed.

Lemma values_run (s : series) (h : list (list float)) out tr (buf : list float) :
  h !! base s = Some buf ->
  values s (World h out tr) = (Ok (window s buf), World h out tr).
Proof. intros H. unfold values. by rewrite run_bind, (load_run _ _ _ _ _ H). Qed.

Lemma len_run (s : series) (h : list (list float)) out tr (buf : list float) :
  h !! base s = Some buf ->
  len s (World h out tr) = (Ok (length (window s buf)), World h out tr).
Proof. intros H. unfold len. by rewrite run_bind, (values_run _ _ _ _ _ H). Qed.

Lemma getitem_run (s : series) (t : nat) (h : list (list float)) out tr
    (buf : list float) (x : float) :
  h !! base s = Some buf -> window s buf !! t = Some x ->
  getitem s t (World h out tr) = (Ok x, World h out tr).
Proof.
  intros H Hx. unfold getitem.
  rewrite run_bind, (values_run _ _ _ _ _ H). by rewrite Hx.
Qed.

Tactic Notation "run_with" uconstr(lem) :=
  rewrite run_bind; erewrite lem; cbv beta iota; cbn [heap stdout trace].

(** ** The evaluator computes [evaluate_on] *)

(** The loop, from step [t]: [history] and [predictions] are the two
    lists above the heap [h0] the evaluator was entered with, and the
    buffer of the series lies in [h0]. *)
Lemma walk_loop (o : order) (test : series) (buf : list float)
    (h0 : list (list float)) (out : list line) :
  h0 !! base test = Some buf ->
  forall (rest : list float) (t : nat) (hs ps : list float) (tr : list event),
    drop t (window test buf) = rest ->
    for_each (seq t (length rest)) (walk_step (length h0) (S (length h0)) test o)
      (World (h0 ++ [hs; ps]) out tr)
    = (let '(r, hs', ps') := walk_forward o rest hs ps in
       (r, World (h0 ++ [hs'; ps']) out (tr ++ walk_trace o rest hs))).
Proof.
  intros Hbuf rest.
  induction rest as [| x rest IH]; intros t hs ps tr Hdrop.
  - simpl. unfold ret. by rewrite app_nil_r.
  - assert (Hx : window test buf !! t = Some x).
    { rewrite <- (Nat.add_0_r t), <- lookup_drop, Hdrop. done. }
    assert (Hrest : drop (S t) (window test buf) = rest).
    { rewrite <- Nat.add_1_r, <- drop_drop, Hdrop. done. }
    cbn [length seq for_each walk_forward walk_trace].
    rewrite run_bind. unfold walk_step at 1.
    rewrite run_bind. unfold fit_forecast at 1.
    run_with (load_run (length h0) _ out tr hs (lookup_fresh0 h0 hs ps)).
    rewrite run_bind. unfold record at 1.
    cbv beta iota; cbn [heap stdout trace].
    destruct (ARIMA hs o) as [yhat |] eqn:Hfit; [| reflexivity].
    unfold ret at 1. cbv beta iota.
    run_with (append_run (S (length h0)) yhat _ out _ ps (lookup_fresh1 h0 hs ps)).
    rewrite insert_fresh1.
    run_with (getitem_run test t _ out _ buf x (lookup_app_l_Some _ _ _ _ Hbuf) Hx).
    rewrite (append_run (length h0) x _ out _ hs (lookup_fresh0 h0 hs _)).
    cbv beta iota; cbn [heap stdout trace].
    rewrite insert_fresh0.
    rewrite (IH (S t) (hs ++ [x]) (ps ++ [yhat]) (tr ++ [FitCall hs o]) Hrest).
    destruct (walk_forward o rest (hs ++ [x]) (ps ++ [yhat])) as [[r hs'] ps'].
    by rewrite <- app_assoc.
Qed.

(** Where the evaluator stops, on a live series: the outcome is
    [evaluate_on] of its values, two lists were allocated above the old
    heap, nothing was printed, and the trace grew by [evaluate_trace]. *)
Lemma evaluate_run (X : series) (o : order) (w : world) (buf : list float) :
  heap w !! base X = Some buf ->
  evaluate_arima_models X o w
  = (evaluate_on (window X buf) o,
     let '(_, hs, ps) := run_walk (window X buf) o in
     World (heap w ++ [hs; ps]) (stdout w)
       (trace w ++ evaluate_trace (window X buf) o)).
Proof.
  destruct w as [h out tr]. cbn [heap stdout trace]. intros Hbuf.
  unfold evaluate_arima_models, evaluate_on, run_walk, evaluate_trace.
  set (xs := window X buf).
  set (k := train_size (length xs)).
  rewrite run_bind. unfold record at 1. cbv beta iota.
  cbn [heap stdout trace].
  run_with (len_run X _ out _ buf Hbuf). fold xs. fold k.
  assert (Htest : h !! base (slice_from X k) = Some buf) by exact Hbuf.
  assert (Htrain : h !! base (slice X 0 k) = Some buf) by exact Hbuf.
  run_with (values_run (slice X 0 k) _ out _ buf Htrain).
  rewrite run_bind. unfold alloc at 1. cbv beta iota. cbn [heap stdout trace].
  rewrite run_bind. unfold alloc at 1. cbv beta iota. cbn [heap stdout trace].
  rewrite length_app. cbn [length]. rewrite Nat.add_1_r.
  rewrite <- app_assoc. cbn [app].
  run_with (len_run (slice_from X k) _ out _ buf (lookup_app_l_Some _ _ _ _ Htest)).
  rewrite window_train, window_test. fold xs.
  rewrite run_bind.
  rewrite (walk_loop o (slice_from X k) buf h out Htest
             (drop k xs) 0 (take k xs) [] (tr ++ [EvalCall o])).
  2:{ rewrite window_test. fold xs. apply drop_0. }
  destruct (walk_forward o (drop k xs) (take k xs) []) as [[r hs] ps].
  rewrite <- app_assoc. cbn [app].
  destruct r as [[] | e]; [| reflexivity].
  run_with (values_run (slice_from X k) _ out _ buf (lookup_app_l_Some _ _ _ _ Htest)).
  rewrite run_bind, (load_run (S (length h)) _ out _ ps (lookup_fresh1 h hs ps)).
  rewrite window_test. reflexivity.
Qed.

(** ** The search computes [best_after] *)

Lemma for_fold_app {A S} (l1 l2 : list A) (b : S) (f : S -> A -> M S) (w : world) :
  for_fold (l1 ++ l2) b f w = (b' <- for_fold l1 b f ;; for_fold l2 b' f) w.
Proof.
  revert b w. induction l1 as [| x l1 IH]; intros b w.
  - reflexivity.
  - cbn [app for_fold]. rewrite !run_bind.
    destruct (f b x w) as [[b' | e] w']; [| reflexivity].
    rewrite IH. by rewrite run_bind.
Qed.

Lemma for_fold_map {A B S} (g : A -> B) (l : list A) (b : S) (f : S -> B -> M S)
    (w : world) :
  for_fold (map g l) b f w = for_fold l b (fun b x => f b (g x)) w.
Proof.
  revert b w. induction l as [| x l IH]; intros b w.
  - reflexivity.
  - cbn [map for_fold]. rewrite !run_bind.
    destruct (f b (g x) w) as [[b' | e] w']; [apply IH | reflexivity].
Qed.

Lemma for_fold_flat_map {A B S} (g : A -> list B) (l : list A) (b : S)
    (f : S -> B -> M S) (w : world) :
  for_fold (flat_map g l) b f w = for_fold l b (fun b x => for_fold (g x) b f) w.
Proof.
  revert b w. induction l as [| x l IH]; intros b w.
  - reflexivity.
  - cbn [flat_map for_fold]. rewrite for_fold_app, !run_bind.
    destruct (for_fold (g x) b f w) as [[b' | e] w']; [apply IH | reflexivity].
Qed.

Lemma for_fold_ext {A S} (l : list A) (f g : S -> A -> M S) :
  (forall b x w, f b x w = g b x w) ->
  forall b w, for_fold l b f w = for_fold l b g w.
Proof.
  intros Hfg. induction l as [| x l IH]; intros b w.
  - reflexivity.
  - cbn [for_fold]. rewrite !run_bind, Hfg.
    destruct (g b x w) as [[b' | e] w']; [apply IH | reflexivity].
Qed.

(** The three nested loops are one loop over [candidates]. *)
Lemma nested_loops {S} (p_values d_values q_values : list nat) (b : S)
    (f : S -> order -> M S) (w : world) :
  for_fold p_values b (fun b p =>
    for_fold d_values b (fun b d =>
      for_fold q_values b (fun b q => f b (p, d, q)))) w
  = for_fold (candidates p_values d_values q_values) b f w.
Proof.
  unfold candidates. rewrite for_fold_flat_map.
  apply for_fold_ext. intros b1 p w1.
  rewrite for_fold_flat_map.
  apply for_fold_ext. intros b2 d w2.
  by rewrite for_fold_map.
Qed.

(** One candidate: the exception of a failing evaluation is caught, and
    the Best Result is [update]d. *)
Lemma try_candidate_run (dataset : series) (b : best) (o : order)
    (h : list (list float)) out tr (buf : list float) :
  h !! base dataset = Some buf ->
  try_candidate dataset b o (World h out tr)
  = (Ok (update (window dataset buf) b o),
     World (h ++ leftovers (window dataset buf) [o])
       (out ++ improvements (window dataset buf) [o] b)
       (tr ++ evaluate_trace (window dataset buf) o)).
Proof.
  intros Hbuf. unfold try_candidate, try_except.
  rewrite run_bind, (evaluate_run dataset o (World h out tr) buf Hbuf).
  unfold update, leftovers. cbn [improvements flat_map heap stdout trace].
  rewrite !app_nil_r.
  destruct (run_walk (window dataset buf) o) as [[r hs] ps].
  destruct (evaluate_on (window dataset buf) o) as [err | e].
  - destruct (err <? fst b)%float.
    + rewrite run_bind. unfold print at 1. reflexivity.
    + unfold ret. by rewrite app_nil_r.
  - unfold ret. by rewrite app_nil_r.
Qed.

Lemma search_loop_run (dataset : series) (buf : list float) (l : list order) :
  forall (b : best) (h : list (list float)) out tr,
    h !! base dataset = Some buf ->
    for_fold l b (try_candidate dataset) (World h out tr)
    = (Ok (best_after (window dataset buf) l b),
       World (h ++ leftovers (window dataset buf) l)
         (out ++ improvements (window dataset buf) l b)
         (tr ++ search_trace (window dataset buf) l)).
Proof.
  induction l as [| o l IH]; intros b h out tr Hbuf.
  - cbn. unfold ret. by rewrite !app_nil_r.
  - cbn [for_fold]. rewrite run_bind, (try_candidate_run _ _ _ _ _ _ buf Hbuf).
    rewrite (IH _ _ _ _ (lookup_app_l_Some _ _ _ _ Hbuf)).
    unfold best_after, search_trace, leftovers, update.
    cbn [fold_left flat_map improvements].
    destruct (run_walk (window dataset buf) o) as [[r hs] ps].
    destruct (evaluate_on (window dataset buf) o) as [err | e];
      [destruct (err <? fst b)%float |];
      rewrite ?app_nil_r, <- ?app_assoc; reflexivity.
Qed.

(** Where the grid search stops, on a live dataset. *)
Lemma evaluate_models_run (dataset : series) (p_values d_values q_values : list nat)
    (w : world) (buf : list float) :
  heap w !! base dataset = Some buf ->
  let xs := map astype_float32 (window dataset buf) in
  let l := candidates p_values d_values q_values in
  evaluate_models dataset p_values d_values q_values w
  = (Ok PyNone,
     World (heap w ++ xs :: leftovers xs l)
       (stdout w ++ improvements xs l (infinity, None)
          ++ [final_line (best_after xs l (infinity, None))])
       (trace w ++ search_trace xs l)).
Proof.
  destruct w as [h out tr]. intros Hbuf xs l. cbn [heap stdout trace] in *.
  unfold evaluate_models.
  run_with (values_run dataset _ out _ buf Hbuf).
  rewrite run_bind. unfold alloc at 1. cbv beta iota. cbn [heap stdout trace].
  fold xs.
  rewrite run_bind.
  rewrite (nested_loops p_values d_values q_values (infinity, None)
             (try_candidate (Series (length h) 0 (length (window dataset buf))))).
  fold l.
  assert (Hnew : (h ++ [xs]) !! base (Series (length h) 0 (length (window dataset buf)))
                 = Some xs).
  { cbn [base]. by rewrite list_lookup_middle. }
  rewrite (search_loop_run _ xs l _ _ _ _ Hnew).
  assert (Hw : window (Series (length h) 0 (length (window dataset buf))) xs = xs).
  { unfold window. cbn [start stop]. rewrite drop_0, Nat.sub_0_r.
    apply take_ge. unfold xs. by rewrite length_map. }
  rewrite Hw.
  rewrite run_bind. unfold print at 1. cbv beta iota. cbn [heap stdout trace].
  unfold ret, final_line.
  by rewrite <- !app_assoc.
Qed.

(** ** The walk-forward loop on values *)

(** When every fit succeeds the loop completes: [history] has taken in
    the whole test suffix, and [predictions] one forecast per step. *)
Lemma walk_forward_ok (o : order) :
  forall (test hs ps : list float),
    (forall t, t < length test -> ARIMA (hs ++ take t test) o <> None) ->
    exists preds,
      walk_forward o test hs ps = (Ok tt, hs ++ test, ps ++ preds) /\
      length preds = length test.
Proof.
  induction test as [| x rest IH]; intros hs ps Hfit.
  - exists []. by rewrite !app_nil_r.
  - cbn [walk_forward].
    pose proof (Hfit 0 ltac:(simpl; lia)) as H0.
    rewrite take_0, app_nil_r in H0.
    destruct (ARIMA hs o) as [yhat |]; [| done].
    destruct (IH (hs ++ [x]) (ps ++ [yhat])) as (preds & Hw & Hlen).
    { intros t Ht. rewrite <- app_assoc. apply (Hfit (S t)). simpl. lia. }
    exists (yhat :: preds). rewrite Hw, <- !app_assoc. simpl. by rewrite Hlen.
Qed.

(** The [t]-th call of the model is made on the starting history
    extended by the first [t] test observations. *)
Lemma walk_trace_lookup (o : order) :
  forall (test hs : list float) (t : nat) (ev : event),
    walk_trace o test hs !! t = Some ev ->
    t < length test /\ ev = FitCall (hs ++ take t test) o.
Proof.
  induction test as [| x rest IH]; intros hs t ev Hev.
  - done.
  - cbn [walk_trace] in Hev. destruct t as [| t].
    + simpl in Hev. inversion Hev. rewrite take_0, app_nil_r.
      split; [simpl; lia | done].
    + cbn [lookup list_lookup] in Hev.
      destruct (ARIMA hs o); [| done].
      destruct (IH _ _ _ Hev) as [Ht ->].
      split; [simpl; lia |]. by rewrite <- app_assoc.
Qed.

(** However the loop stops, [history] is the starting history followed
    by the test observations of the steps made, and [predictions] has
    grown by one forecast per step made. *)
Lemma walk_forward_grows (o : order) :
  forall (test hs ps : list float),
    exists (n : nat) (preds : list float),
      n <= length test /\ length preds = n /\
      snd (fst (walk_forward o test hs ps)) = hs ++ take n test /\
      snd (walk_forward o test hs ps) = ps ++ preds.
Proof.
  induction test as [| x rest IH]; intros hs ps.
  - exists 0, []. cbn. by rewrite !app_nil_r.
  - cbn [walk_forward]. destruct (ARIMA hs o) as [yhat |].
    + destruct (IH (hs ++ [x]) (ps ++ [yhat])) as (n & preds & Hn & Hlen & Hh & Hp).
      exists (S n), (yhat :: preds). rewrite Hh, Hp, <- !app_assoc.
      cbn. split; [lia |]. by rewrite Hlen.
    + exists 0, []. cbn. split; [lia |]. by rewrite !app_nil_r.
Qed.

Lemma take_split (k t : nat) (xs : list float) :
  take k xs ++ take t (drop k xs) = take (k + t) xs.
Proof. by rewrite take_take_drop. Qed.

(** The walk in full: it makes [n] steps, each with a successful fit
    whose forecast it appends to [predictions] and whose observation it
    appends to [history]; then it is over, or the fit of step [n] fails.
    The model was called once per step begun, on the history of that
    step. *)
Lemma walk_spec (o : order) :
  forall (test hs ps : list float),
    exists (n : nat) (preds : list float),
      n <= length test /\ length preds = n /\
      (forall i, i < n -> ARIMA (hs ++ take i test) o = preds !! i) /\
      snd (fst (walk_forward o test hs ps)) = hs ++ take n test /\
      snd (walk_forward o test hs ps) = ps ++ preds /\
      ((fst (fst (walk_forward o test hs ps)) = Ok tt /\ n = length test /\
        walk_trace o test hs
        = map (fun i => FitCall (hs ++ take i test) o) (seq 0 n)) \/
       (fst (fst (walk_forward o test hs ps)) = Raise ModelError /\
        n < length test /\ ARIMA (hs ++ take n test) o = None /\
        walk_trace o test hs
        = map (fun i => FitCall (hs ++ take i test) o) (seq 0 (S n)))).
Proof.
  induction test as [| x rest IH]; intros hs ps.
  - exists 0, []. cbn. rewrite !app_nil_r.
    do 2 (split; [done |]). split; [intros i Hi; lia |].
    do 2 (split; [done |]). by left.
  - cbn [walk_forward walk_trace]. destruct (ARIMA hs o) as [yhat |] eqn:Hfit.
    + destruct (IH (hs ++ [x]) (ps ++ [yhat]))
        as (n & preds & Hn & Hlen & Hfc & Hh & Hp & Hend).
      exists (S n), (yhat :: preds).
      split; [simpl; lia |]. split; [simpl; by rewrite Hlen |].
      split.
      { intros [| i] Hi.
        - by rewrite take_0, app_nil_r.
        - cbn [take lookup list_lookup]. rewrite <- Hfc by lia.
          by rewrite <- app_assoc. }
      split; [by rewrite Hh, <- app_assoc |].
      split; [by rewrite Hp, <- app_assoc |].
      assert (Hshift : forall k,
        FitCall hs o :: map (fun i => FitCall ((hs ++ [x]) ++ take i rest) o) (seq 0 k)
        = map (fun i => FitCall (hs ++ take i (x :: rest)) o) (seq 0 (S k))).
      { intros k. change (seq 0 (S k)) with (0 :: seq 1 k).
        cbn [map]. rewrite take_0, app_nil_r. f_equal.
        rewrite <- seq_shift, map_map. apply map_ext.
        intros i. by rewrite <- app_assoc. }
      destruct Hend as [(Hok & -> & Htr) | (Hraise & Hlt & Hnone & Htr)].
      * left. split; [done |]. split; [done |]. by rewrite Htr, Hshift.
      * right. split; [done |]. split; [simpl; lia |].
        split; [by rewrite <- app_assoc in Hnone |]. by rewrite Htr, Hshift.
    + exists 0, []. cbn [fst snd length take]. rewrite !app_nil_r.
      split; [lia |]. split; [done |]. split; [intros i Hi; lia |].
      do 2 (split; [done |]). right.
      split; [done |]. split; [simpl; lia |]. split; [done |].
      cbn [seq map]. by rewrite take_0, app_nil_r.
Qed.

(** C1. For every live series and every triple for which the model fits
    at every step of the walk, the evaluator returns a float: the rmse of
    the test suffix and the predictions.  That float is never below
    zero: it is NaN or a non-negative number, and a non-negative number
    when the mean of squares it is the root of is one.  The predictions
    accumulated are the forecasts of the steps, in order, as many as the
    test suffix is long, [length - split], where
    [split = int(length * 0.66)] cuts the series into the training prefix
    and the test suffix. *)
Theorem evaluate_returns_error
    (X : series) (o : order) (w : world) (buf : list float) :
  heap w !! base X = Some buf ->
  let xs := window X buf in
  let split := train_size (length xs) in
  (forall t, t < length xs - split -> ARIMA (take (split + t) xs) o <> None) ->
  exists (err : float) (predictions : list float),
    fst (evaluate_arima_models X o w) = Ok err /\
    err = rmse (drop split xs) predictions /\
    (err <? 0)%float = false /\
    ((err =? err)%float = false \/ (0 <=? err)%float = true) /\
    ((0 <=? mse (drop split xs) predictions)%float = true ->
     (0 <=? err)%float = true) /\
    heap (snd (evaluate_arima_models X o w)) !! S (length (heap w))
      = Some predictions /\
    length predictions = length xs - split /\
    (forall t, t < length xs - split ->
       ARIMA (take (split + t) xs) o = predictions !! t) /\
    length (drop split xs) = length xs - split /\
    take split xs ++ drop split xs = xs.
Proof.
  intros Hbuf xs split Hfit.
  rewrite (evaluate_run X o w buf Hbuf). fold xs.
  unfold evaluate_on, run_walk. fold split.
  destruct (walk_spec o (drop split xs) (take split xs) [])
    as (n & preds & Hn & Hlen & Hfc & _ & Hp & Hend).
  rewrite length_drop in Hn.
  assert (Hdone : fst (fst (walk_forward o (drop split xs) (take split xs) [])) = Ok tt
                  /\ n = length xs - split).
  { destruct Hend as [(Hok & -> & _) | (_ & Hlt & Hnone & _)].
    - by rewrite length_drop.
    - exfalso. rewrite length_drop in Hlt. rewrite take_split in Hnone.
      by apply (Hfit n Hlt). }
  destruct Hdone as [Hok ->].
  destruct (walk_forward o (drop split xs) (take split xs) []) as [[res hs] ps].
  cbn [fst snd] in Hok, Hp. subst res ps. cbn [fst snd heap app].
  exists (rmse (drop split xs) preds), preds.
  split; [done |]. split; [done |].
  split; [apply sqrt_not_negative |].
  split.
  { unfold rmse.
    destruct (sqrt (mse (drop split xs) preds) =? sqrt (mse (drop split xs) preds))%float
      eqn:Hnum; [right; by apply sqrt_number_nonneg | by left]. }
  split; [apply sqrt_nonneg |].
  split; [apply lookup_fresh1 |].
  split; [done |].
  split; [intros t Ht; rewrite <- take_split; by apply Hfc |].
  split; [apply length_drop | apply take_drop].
Qed.

(** C3. In every evaluation of a live series the walk makes [n] whole
    steps and the model is called once per step begun, in order, on the
    prefixes of the series: the call at step [t] sees a history of
    length [split + t] that is the first [split + t] observations, so its
    last element is the observation at position [split + t - 1] of the
    series and never a forecast, and the next call sees that history with
    the test observation of step [t] appended.  Every step whose fit
    succeeds appends its observation: after the walk [history] holds the
    first [split + n] observations, which is the whole series when the
    evaluation returns, [n] being the length of the test suffix, and the
    history of the failing fit when it raises. *)
Theorem expanding_window (X : series) (o : order) (w : world) (buf : list float) :
  heap w !! base X = Some buf ->
  let xs := window X buf in
  let split := train_size (length xs) in
  let r := evaluate_arima_models X o w in
  exists (n : nat) (fits : list event),
    trace (snd r) = trace w ++ EvalCall o :: fits /\
    n <= length xs - split /\
    fits = map (fun t => FitCall (take (split + t) xs) o) (seq 0 (length fits)) /\
    (forall t, t < n -> ARIMA (take (split + t) xs) o <> None) /\
    heap (snd r) !! length (heap w) = Some (take (split + n) xs) /\
    (((exists err, fst r = Ok err) /\ n = length xs - split /\ length fits = n) \/
     (fst r = Raise ModelError /\ n < length xs - split /\
      ARIMA (take (split + n) xs) o = None /\ length fits = S n)) /\
    forall (t : nat) (ev : event),
      fits !! t = Some ev ->
      t < length xs - split /\
      exists history : list float,
        ev = FitCall history o /\
        history = take (split + t) xs /\
        length history = split + t /\
        (forall x, last history = Some x -> xs !! (split + t - 1) = Some x) /\
        (forall ev', fits !! S t = Some ev' ->
           exists x, xs !! (split + t) = Some x /\ ev' = FitCall (history ++ [x]) o).
Proof.
  intros Hbuf xs split r. unfold r.
  rewrite (evaluate_run X o w buf Hbuf). fold xs.
  unfold evaluate_on, evaluate_trace, run_walk. fold split.
  destruct (walk_spec o (drop split xs) (take split xs) [])
    as (n & preds & Hn & Hlen & Hfc & Hh & Hp & Hend).
  rewrite length_drop in Hn.
  assert (Hmap : forall k,
    map (fun i => FitCall (take split xs ++ take i (drop split xs)) o) (seq 0 k)
    = map (fun t => FitCall (take (split + t) xs) o) (seq 0 k)).
  { intros k. apply map_ext. intros i. by rewrite take_split. }
  exists n, (walk_trace o (drop split xs) (take split xs)).
  destruct (walk_forward o (drop split xs) (take split xs) []) as [[res hs] ps].
  cbn [fst snd trace heap] in *. subst hs ps.
  split; [done |]. split; [done |].
  split.
  { destruct Hend as [(_ & _ & Htr) | (_ & _ & _ & Htr)];
      rewrite Htr at 1; rewrite Htr, length_map, length_seq; apply Hmap. }
  split.
  { intros t Ht. rewrite <- take_split, (Hfc t Ht).
    assert (is_Some (preds !! t)) as [y Hy] by (apply lookup_lt_is_Some_2; lia).
    by rewrite Hy. }
  split; [by rewrite lookup_fresh0, take_split |].
  split.
  { destruct Hend as [(-> & -> & Htr) | (-> & Hlt & Hnone & Htr)].
    - left. split; [by eexists |]. rewrite length_drop. split; [done |].
      by rewrite Htr, length_map, length_seq, length_drop.
    - right. rewrite length_drop in Hlt. rewrite take_split in Hnone.
      do 3 (split; [done |]). by rewrite Htr, length_map, length_seq. }
  intros t ev Hev.
  destruct (walk_trace_lookup o _ _ _ _ Hev) as [Ht ->].
  rewrite length_drop in Ht. rewrite take_split.
  split; [done |].
  exists (take (split + t) xs).
  assert (Hlent : length (take (split + t) xs) = split + t).
  { rewrite length_take. lia. }
  repeat split; try done.
  - intros x Hlast. rewrite last_lookup, Hlent in Hlast.
    destruct (split + t) as [| m] eqn:Hm; [done |].
    simpl in Hlast. rewrite lookup_take_lt in Hlast by lia.
    by replace (S m - 1) with m by lia.
  - intros ev' Hev'.
    destruct (walk_trace_lookup o _ _ _ _ Hev') as [Ht' ->].
    rewrite length_drop in Ht'. rewrite take_split.
    destruct (lookup_lt_is_Some_2 xs (split + t) ltac:(lia)) as [x Hx].
    exists x. split; [done |].
    replace (split + S t) with (S (split + t)) by lia.
    by rewrite (take_S_r _ _ _ Hx).
Qed.

(** ** The Best Result on values *)

Lemma update_cases (xs : list float) (b : best) (o : order) :
  (update xs b o = b /\
   forall e, evaluate_on xs o = Ok e -> (e <? fst b)%float = false) \/
  (exists e, evaluate_on xs o = Ok e /\ (e <? fst b)%float = true /\
             update xs b o = (e, Some o)).
Proof.
  unfold update. destruct (evaluate_on xs o) as [e | x].
  - destruct (e <? fst b)%float eqn:Hlt.
    + right. by exists e.
    + left. split; [done |]. intros e' [= <-]. done.
  - left. split; [done |]. intros e' [=].
Qed.

Lemma best_after_app (xs : list float) (l1 l2 : list order) (b : best) :
  best_after xs (l1 ++ l2) b = best_after xs l2 (best_after xs l1 b).
Proof. apply fold_left_app. Qed.

(** The Best Result after any candidates is the one before, or has a
    strictly smaller error. *)
Lemma best_after_decreases (xs : list float) (l : list order) :
  forall b : best,
    best_after xs l b = b \/ (fst (best_after xs l b) <? fst b)%float = true.
Proof.
  induction l as [| o l IH]; intros b.
  - by left.
  - cbn [best_after fold_left]. fold (best_after xs l (update xs b o)).
    destruct (update_cases xs b o) as [[-> _] | (e & _ & Hlt & Hup)]; [apply IH |].
    right. destruct (IH (update xs b o)) as [-> | Hdec].
    + by rewrite Hup.
    + rewrite Hup in Hdec |- *. exact (ltb_trans _ _ _ Hdec Hlt).
Qed.

(** Either no candidate improved on [b], or the Best Result is the first
    of the candidates with the least error. *)
Lemma best_after_spec (xs : list float) (l : list order) :
  forall b : best,
    (best_after xs l b = b /\
     forall j o e, l !! j = Some o -> evaluate_on xs o = Ok e ->
       (e <? fst b)%float = false) \/
    (exists i o e, best_after xs l b = (e, Some o) /\
       (e <? fst b)%float = true /\ first_best xs l i o e).
Proof.
  induction l as [| o l IH]; intros b.
  - left. split; [done |]. intros j o e Hj. done.
  - cbn [best_after fold_left]. fold (best_after xs l (update xs b o)).
    destruct (IH (update xs b o)) as [[Hsame Hno] | (i & o1 & e1 & Hb & Hlt & Hfb)].
    + rewrite Hsame.
      destruct (update_cases xs b o) as [[Hup Hhd] | (e & He & Hlt & Hup)].
      * left. rewrite Hup in Hno |- *. split; [done |].
        intros [| j] o' e' Hj He'.
        -- injection Hj as <-. by apply Hhd.
        -- by apply (Hno j o' e').
      * right. exists 0, o, e. rewrite Hup in Hno |- *.
        do 2 (split; [done |]). unfold first_best.
        do 2 (split; [done |]). split.
        -- intros [| j] o' e' Hj He'.
           ++ injection Hj as <-. rewrite He in He'. injection He' as <-.
              apply ltb_irrefl.
           ++ by apply (Hno j o' e').
        -- intros j o' e' Hj. lia.
    + right. exists (S i), o1, e1.
      destruct Hfb as (Hi & He1 & Hmin & Hfirst).
      assert (Hlt' : (e1 <? fst b)%float = true).
      { destruct (update_cases xs b o) as [[Hup _] | (e & _ & Hlt0 & Hup)];
          rewrite Hup in Hlt; [done |].
        exact (ltb_trans _ _ _ Hlt Hlt0). }
      assert (Hhead : forall e', evaluate_on xs o = Ok e' ->
                (e' <? e1)%float = false /\ (e' =? e1)%float = false /\ e' <> e1).
      { intros e' He'.
        assert (Hge : (e' <? fst (update xs b o))%float = false).
        { destruct (update_cases xs b o) as [[Hup Hhd] | (e & He & _ & Hup)];
            rewrite Hup.
          - by apply Hhd.
          - rewrite He in He'. injection He' as <-. apply ltb_irrefl. }
        repeat split.
        - destruct (e' <? e1)%float eqn:H1; [| done].
          by rewrite (ltb_trans _ _ _ H1 Hlt) in Hge.
        - destruct (e' =? e1)%float eqn:H1; [| done].
          by rewrite (ltb_eqb _ _ _ H1 Hlt) in Hge.
        - intros ->. by rewrite Hlt in Hge. }
      do 2 (split; [done |]). unfold first_best.
      do 2 (split; [done |]). split.
      * intros [| j] o' e' Hj He'.
        -- injection Hj as <-. by apply Hhead.
        -- by apply (Hmin j o' e').
      * intros [| j] o' e' Hji Hj He'.
        -- injection Hj as <-. destruct (Hhead e' He') as (_ & Heq & Hne). done.
        -- apply (Hfirst j o' e'); [lia | done | done].
Qed.

(** ** The enumeration *)

Lemma length_flat_map_uniform {A B} (g : A -> list B) (n : nat) (l : list A) :
  (forall x, length (g x) = n) -> length (flat_map g l) = length l * n.
Proof.
  intros Hn. induction l as [| x l IH]; [done |].
  cbn [flat_map length]. rewrite length_app, Hn, IH. lia.
Qed.


Lemma length_candidates (p_values d_values q_values : list nat) :
  length (candidates p_values d_values q_values)
  = length p_values * length d_values * length q_values.
Proof.
  unfold candidates.
  rewrite (length_flat_map_uniform _ (length d_values * length q_values)); [lia |].
  intros p. apply length_flat_map_uniform. intros d. apply length_map.
Qed.


(** A search evaluates its candidates, each once, in their order. *)
Lemma evaluated_walk_trace (o : order) :
  forall test hs, evaluated (walk_trace o test hs) = [].
Proof.
  induction test as [| x rest IH]; intros hs; [done |].
  cbn [walk_trace]. unfold evaluated. cbn [omap list_omap].
  destruct (ARIMA hs o); [apply IH | done].
Qed.

Lemma evaluated_search_trace (xs : list float) (l : list order) :
  evaluated (search_trace xs l) = l.
Proof.
  unfold search_trace. induction l as [| o l IH]; [done |].
  cbn [flat_map]. unfold evaluated in *. rewrite omap_app, IH.
  unfold evaluate_trace. cbn [omap list_omap].
  by rewrite (evaluated_walk_trace o).
Qed.

(** ** The grid search *)



(** C4. The Best Result starts at plus infinity with no configuration.
    After any further candidate, and after any further stretch of the
    enumeration, it is what it was or has a strictly smaller error; the
    loop over a part of the candidates computes it, and the final line
    prints the last one. *)
Theorem best_score_monotone (dataset : series)
    (p_values d_values q_values : list nat) (w : world) (buf : list float) :
  heap w !! base dataset = Some buf ->
  let xs := map astype_float32 (window dataset buf) in
  let l := candidates p_values d_values q_values in
  let r := evaluate_models dataset p_values d_values q_values w in
  let copy := Series (length (heap w)) 0 (length xs) in
  let w1 := World (heap w ++ [xs]) (stdout w) (trace w) in
  best_after xs [] (infinity, None) = (infinity, None) /\
  (forall l1 l2, l = l1 ++ l2 ->
     fst (for_fold l1 (infinity, None) (try_candidate copy) w1)
     = Ok (best_after xs l1 (infinity, None))) /\
  (forall l1 o l2, l = l1 ++ o :: l2 ->
     let b := best_after xs l1 (infinity, None) in
     let b' := best_after xs (l1 ++ [o]) (infinity, None) in
     b' = b \/ (fst b' <? fst b)%float = true) /\
  (forall l1 l2, l = l1 ++ l2 ->
     let b := best_after xs l1 (infinity, None) in
     let b' := best_after xs l (infinity, None) in
     b' = b \/ (fst b' <? fst b)%float = true) /\
  last (stdout (snd r)) = Some (final_line (best_after xs l (infinity, None))).
Proof.
  intros Hbuf xs l r copy w1.
  split; [done |]. split.
  { intros l1 l2 _. unfold w1.
    assert (Hcopy : (heap w ++ [xs]) !! base copy = Some xs).
    { unfold copy. cbn [base]. by rewrite list_lookup_middle. }
    rewrite (search_loop_run copy xs l1 _ _ _ _ Hcopy). cbn [fst].
    assert (Hw : window copy xs = xs).
    { unfold window, copy. cbn [start stop]. rewrite drop_0, Nat.sub_0_r.
      by apply take_ge. }
    by rewrite Hw. }
  split.
  { intros l1 o l2 _ b b'. unfold b'. rewrite best_after_app. fold b.
    apply best_after_decreases. }
  split.
  { intros l1 l2 -> b b'. unfold b'. rewrite best_after_app. fold b.
    apply best_after_decreases. }
  unfold r. rewrite (evaluate_models_run _ _ _ _ _ _ Hbuf). fold xs l.
  cbn [snd stdout]. by rewrite app_assoc, last_snoc.
Qed.


(** C10. When one of the three candidate lists is empty, the grid search
    on a live dataset has no candidate: the evaluator and the model are
    never called (the trace stays as it was), and the one line printed
    is the final line with the initial Best Result, no configuration and
    plus infinity. *)
Theorem empty_candidates (dataset : series)
    (p_values d_values q_values : list nat) (w : world) (buf : list float) :
  heap w !! base dataset = Some buf ->
  p_values = [] \/ d_values = [] \/ q_values = [] ->
  let r := evaluate_models dataset p_values d_values q_values w in
  candidates p_values d_values q_values = [] /\
  fst r = Ok PyNone /\
  trace (snd r) = trace w /\
  stdout (snd r) = stdout w ++ [final_line (infinity, None)] /\
  final_line (infinity, None) = Line final_fmt [PyNone; PyFloat infinity].
Proof.
  intros Hbuf Hempty r.
  assert (Hl : candidates p_values d_values q_values = []).
  { apply length_zero_iff_nil. rewrite length_candidates.
    destruct Hempty as [-> | [-> | ->]]; simpl; lia. }
  unfold r. rewrite (evaluate_models_run _ _ _ _ _ _ Hbuf), Hl.
  cbn. by rewrite app_nil_r.
Qed.

(** C6. The grid search on a live dataset returns [None], whatever the
    series and the candidates; the pair of the best configuration and
    the best error is what its final printed line shows. *)
Theorem search_prints_best (dataset : series)
    (p_values d_values q_values : list nat) (w : world) (buf : list float) :
  heap w !! base dataset = Some buf ->
  let xs := map astype_float32 (window dataset buf) in
  let r := evaluate_models dataset p_values d_values q_values w in
  let b := best_after xs (candidates p_values d_values q_values) (infinity, None) in
  fst r = Ok PyNone /\
  last (stdout (snd r)) = Some (Line final_fmt [py_cfg (snd b); PyFloat (fst b)]).
Proof.
  intros Hbuf xs r b. unfold r.
  rewrite (evaluate_models_run _ _ _ _ _ _ Hbuf). cbn [fst snd stdout].
  split; [done |]. by rewrite app_assoc, last_snoc.
Qed.

(** C7. When no candidate succeeds, the grid search on a live dataset
    returns [None] as always and prints one line, the final line, in the
    format of every final line, filled with the initial Best Result: no
    configuration and plus infinity. *)
Theorem no_success_report (dataset : series)
    (p_values d_values q_values : list nat) (w : world) (buf : list float) :
  heap w !! base dataset = Some buf ->
  let xs := map astype_float32 (window dataset buf) in
  let l := candidates p_values d_values q_values in
  let r := evaluate_models dataset p_values d_values q_values w in
  (forall o e, o ∈ l -> evaluate_on xs o <> Ok e) ->
  fst r = Ok PyNone /\
  stdout (snd r) = stdout w ++ [Line final_fmt [PyNone; PyFloat infinity]] /\
  (forall b, fmt (final_line b) = final_fmt) /\
  report_form r = (Ok PyNone, Some final_fmt).
Proof.
  intros Hbuf xs l r Hfail.
  assert (Hnone : forall b, best_after xs l b = b /\ improvements xs l b = []).
  { revert Hfail. generalize l. clear.
    induction l as [| o l IH]; intros Hfail b; [done |].
    cbn [best_after fold_left improvements]. unfold update.
    destruct (evaluate_on xs o) as [e | x] eqn:He.
    - exfalso. apply (Hfail o e); [left | done].
    - apply IH. intros o' e' Ho'. apply Hfail. by right. }
  destruct (Hnone (infinity, None)) as [Hb Himp].
  unfold report_form, r.
  rewrite (evaluate_models_run _ _ _ _ _ _ Hbuf). fold xs l.
  rewrite Hb, Himp. cbn [fst snd stdout app].
  repeat split; try done.
  by rewrite last_snoc.
Qed.

(** ** Frame and determinism *)

Lemma evaluate_run_dangling (X : series) (o : order) (w : world) :
  heap w !! base X = None ->
  evaluate_arima_models X o w
  = (Raise IndexError, World (heap w) (stdout w) (trace w ++ [EvalCall o])).
Proof.
  intros Hnone. unfold evaluate_arima_models.
  rewrite run_bind. unfold record at 1. cbv beta iota.
  rewrite run_bind. unfold len, values. rewrite !run_bind.
  unfold load. cbn [heap]. by rewrite Hnone.
Qed.

Lemma evaluate_models_dangling (dataset : series)
    (p_values d_values q_values : list nat) (w : world) :
  heap w !! base dataset = None ->
  evaluate_models dataset p_values d_values q_values w = (Raise IndexError, w).
Proof.
  intros Hnone. unfold evaluate_models.
  rewrite run_bind. unfold values. rewrite run_bind.
  unfold load. by rewrite Hnone.
Qed.

(** C8. Neither function writes to an object that existed when it was
    called: the heap it leaves is the heap it found, followed by the
    objects it created, so the caller's series holds the values it held.
    The float coercion of the grid search is one of the new objects, and
    the lists an evaluation appends to, [history] and [predictions], are
    the two objects it created. *)
Theorem series_never_mutated :
  (forall (X : series) (o : order) (w : world),
     let w' := snd (evaluate_arima_models X o w) in
     (exists new, heap w' = heap w ++ new) /\
     (forall l buf, heap w !! l = Some buf -> heap w' !! l = Some buf) /\
     (forall buf, heap w !! base X = Some buf ->
        let xs := window X buf in
        let split := train_size (length xs) in
        fst (values X w') = Ok xs /\
        exists (n : nat) (predictions : list float),
          n <= length xs - split /\ length predictions = n /\
          heap w' = heap w ++ [take (split + n) xs; predictions])) /\
  (forall (dataset : series) (p_values d_values q_values : list nat) (w : world),
     let w' := snd (evaluate_models dataset p_values d_values q_values w) in
     (exists new, heap w' = heap w ++ new) /\
     (forall l buf, heap w !! l = Some buf -> heap w' !! l = Some buf) /\
     (forall buf, heap w !! base dataset = Some buf ->
        fst (values dataset w') = Ok (window dataset buf) /\
        heap w' !! length (heap w) = Some (map astype_float32 (window dataset buf)))).
Proof.
  split.
  - intros X o w w'.
    assert (Hext : exists new, heap w' = heap w ++ new).
    { unfold w'. destruct (heap w !! base X) as [buf |] eqn:Hbuf.
      - rewrite (evaluate_run X o w buf Hbuf).
        destruct (run_walk (window X buf) o) as [[r hs] ps]. by eexists.
      - rewrite (evaluate_run_dangling X o w Hbuf). exists []. cbn.
        by rewrite app_nil_r. }
    split; [done |]. split.
    + destruct Hext as [new ->]. intros l buf. apply lookup_app_l_Some.
    + intros buf Hbuf xs split. unfold w'. rewrite (evaluate_run X o w buf Hbuf).
      fold xs. unfold run_walk. fold split.
      destruct (walk_forward_grows o (drop split xs) (take split xs) [])
        as (n & preds & Hn & Hlen & Hh & Hp).
      destruct (walk_forward o (drop split xs) (take split xs) []) as [[r hs] ps].
      cbn [fst snd] in *. subst hs ps. split.
      * by rewrite (values_run X _ _ _ buf (lookup_app_l_Some _ _ _ _ Hbuf)).
      * exists n, preds. rewrite length_drop in Hn.
        rewrite take_split. cbn [app]. done.
  - intros dataset p_values d_values q_values w w'.
    assert (Hext : exists new, heap w' = heap w ++ new).
    { unfold w'. destruct (heap w !! base dataset) as [buf |] eqn:Hbuf.
      - rewrite (evaluate_models_run _ _ _ _ _ _ Hbuf). by eexists.
      - rewrite (evaluate_models_dangling _ _ _ _ _ Hbuf). exists [].
        by rewrite app_nil_r. }
    split; [done |]. split.
    + destruct Hext as [new ->]. intros l buf. apply lookup_app_l_Some.
    + intros buf Hbuf. unfold w'.
      rewrite (evaluate_models_run _ _ _ _ _ _ Hbuf). cbn [snd heap].
      split; [| by rewrite list_lookup_middle].
      by rewrite (values_run dataset _ _ _ buf (lookup_app_l_Some _ _ _ _ Hbuf)).
Qed.

(** C9. The outcome of an evaluation is a function of the values of the
    series and of the triple: an evaluation repeated in the world the
    first one left has the same outcome, and so have evaluations, in any
    two worlds, of live series with the same values. *)
Theorem evaluate_deterministic (X : series) (o : order) (w : world) :
  fst (evaluate_arima_models X o (snd (evaluate_arima_models X o w)))
  = fst (evaluate_arima_models X o w) /\
  (forall (X' : series) (w' : world) (buf buf' : list float),
     heap w !! base X = Some buf -> heap w' !! base X' = Some buf' ->
     window X' buf' = window X buf ->
     fst (evaluate_arima_models X' o w') = fst (evaluate_arima_models X o w)).
Proof.
  split.
  - destruct (heap w !! base X) as [buf |] eqn:Hbuf.
    + rewrite (evaluate_run X o w buf Hbuf).
      destruct (run_walk (window X buf) o) as [[r hs] ps]. cbn [fst snd].
      by rewrite (evaluate_run X o (World (heap w ++ [hs; ps]) _ _) buf
                    (lookup_app_l_Some _ _ _ _ Hbuf)).
    + rewrite (evaluate_run_dangling X o w Hbuf). cbn [fst snd].
      by rewrite (evaluate_run_dangling X o (World (heap w) _ _) Hbuf).
  - intros X' w' buf buf' Hbuf Hbuf' Hsame.
    rewrite (evaluate_run X o w buf Hbuf), (evaluate_run X' o w' buf' Hbuf').
    cbn [fst]. by rewrite Hsame.
Qed.

(** ** Further properties of the evaluator *)

(** The calls of the model when every fit succeeds, and when the fit of
    step [t] is the first to fail. *)
Lemma walk_trace_ok (o : order) :
  forall (test hs : list float),
    (forall i, i < length test -> ARIMA (hs ++ take i test) o <> None) ->
    walk_trace o test hs
    = map (fun i => FitCall (hs ++ take i test) o) (seq 0 (length test)).
Proof.
  induction test as [| x rest IH]; intros hs Hfit; [done |].
  cbn [walk_trace length]. change (seq 0 (S (length rest))) with (0 :: seq 1 (length rest)).
  cbn [map]. rewrite take_0, app_nil_r.
  pose proof (Hfit 0 ltac:(simpl; lia)) as H0.
  rewrite take_0, app_nil_r in H0.
  destruct (ARIMA hs o) as [yhat |]; [| done].
  f_equal. rewrite IH.
  - rewrite <- seq_shift, map_map. apply map_ext. intros i.
    by rewrite <- app_assoc.
  - intros i Hi. rewrite <- app_assoc. apply (Hfit (S i)). simpl. lia.
Qed.

Lemma walk_stops (o : order) :
  forall (test hs ps : list float) (t : nat),
    t < length test ->
    (forall i, i < t -> ARIMA (hs ++ take i test) o <> None) ->
    ARIMA (hs ++ take t test) o = None ->
    walk_trace o test hs = map (fun i => FitCall (hs ++ take i test) o) (seq 0 (S t)) /\
    exists preds,
      length preds = t /\
      walk_forward o test hs ps = (Raise ModelError, hs ++ take t test, ps ++ preds).
Proof.
  induction test as [| x rest IH]; intros hs ps t Ht Hfit Hfail; [simpl in Ht; lia |].
  cbn [walk_trace walk_forward]. destruct t as [| t].
  - rewrite take_0, app_nil_r in Hfail. rewrite Hfail.
    cbn [seq map]. rewrite !take_0, !app_nil_r.
    split; [done |]. exists []. by rewrite app_nil_r.
  - pose proof (Hfit 0 ltac:(lia)) as H0. rewrite take_0, app_nil_r in H0.
    destruct (ARIMA hs o) as [yhat |]; [| done].
    destruct (IH (hs ++ [x]) (ps ++ [yhat]) t) as (Htr & preds & Hlen & Hw).
    { simpl in Ht. lia. }
    { intros i Hi. rewrite <- app_assoc. apply (Hfit (S i)). lia. }
    { rewrite <- app_assoc. exact Hfail. }
    split.
    + rewrite Htr. change (seq 0 (S (S t))) with (0 :: seq 1 (S t)).
      cbn [map]. rewrite take_0, app_nil_r. f_equal.
      rewrite <- seq_shift, map_map.
      apply map_ext. intros i. by rewrite <- app_assoc.
    + exists (yhat :: preds). rewrite Hw, <- !app_assoc. simpl. by rewrite Hlen.
Qed.

Lemma length_walk_trace (o : order) :
  forall test hs, length (walk_trace o test hs) <= length test.
Proof.
  induction test as [| x rest IH]; intros hs; [done |].
  cbn [walk_trace length]. destruct (ARIMA hs o); [| simpl; lia].
  specialize (IH (hs ++ [x])). lia.
Qed.

Lemma walk_trace_orders (o : order) :
  forall test hs ev, ev ∈ walk_trace o test hs -> exists h, ev = FitCall h o.
Proof.
  induction test as [| x rest IH]; intros hs ev Hev; [by apply elem_of_nil in Hev |].
  cbn [walk_trace] in Hev. apply elem_of_cons in Hev as [-> | Hev]; [by eexists |].
  destruct (ARIMA hs o); [by eapply IH | by apply elem_of_nil in Hev].
Qed.

(** X1. An evaluation stops at the first fit that fails: when the fits
    of the steps before [t] succeed and the fit of step [t] fails, the
    evaluator raises, having called the model [t + 1] times, on the
    prefixes of lengths [split] to [split + t]; it has made [t]
    predictions, [history] holds the first [split + t] observations, and
    nothing was printed. *)
Theorem evaluate_stops_at_first_failure
    (X : series) (o : order) (w : world) (buf : list float) (t : nat) :
  heap w !! base X = Some buf ->
  let xs := window X buf in
  let split := train_size (length xs) in
  let r := evaluate_arima_models X o w in
  t < length xs - split ->
  (forall i, i < t -> ARIMA (take (split + i) xs) o <> None) ->
  ARIMA (take (split + t) xs) o = None ->
  fst r = Raise ModelError /\
  trace (snd r)
  = trace w ++ EvalCall o
      :: map (fun i => FitCall (take (split + i) xs) o) (seq 0 (S t)) /\
  stdout (snd r) = stdout w /\
  exists predictions,
    length predictions = t /\
    heap (snd r) = heap w ++ [take (split + t) xs; predictions].
Proof.
  intros Hbuf xs split r Ht Hfit Hfail. unfold r.
  rewrite (evaluate_run X o w buf Hbuf). fold xs.
  unfold evaluate_on, evaluate_trace, run_walk. fold split.
  destruct (walk_stops o (drop split xs) (take split xs) [] t)
    as (Htr & preds & Hlen & Hw).
  { by rewrite length_drop. }
  { intros i Hi. rewrite take_split. by apply Hfit. }
  { by rewrite take_split. }
  rewrite Hw, Htr. cbn [fst snd trace stdout heap app].
  split; [done |]. split.
  { do 2 f_equal. apply map_ext. intros i. by rewrite take_split. }
  split; [done |]. exists preds. split; [done |]. by rewrite take_split.
Qed.

(** X2. The evaluator never prints, and what it adds to the trace is its
    own call followed by calls of the model, all with its triple. *)
Theorem evaluator_is_silent (X : series) (o : order) (w : world) :
  let r := evaluate_arima_models X o w in
  stdout (snd r) = stdout w /\
  exists calls,
    trace (snd r) = trace w ++ EvalCall o :: calls /\
    forall ev, ev ∈ calls -> exists h, ev = FitCall h o.
Proof.
  intros r. unfold r.
  destruct (heap w !! base X) as [buf |] eqn:Hbuf.
  - rewrite (evaluate_run X o w buf Hbuf). unfold evaluate_trace.
    destruct (run_walk (window X buf) o) as [[res hs] ps]. cbn [snd stdout trace].
    split; [done |]. eexists. split; [done |]. apply walk_trace_orders.
  - rewrite (evaluate_run_dangling X o w Hbuf). cbn [snd stdout trace].
    split; [done |]. exists []. split; [done |].
    intros ev Hev. by apply elem_of_nil in Hev.
Qed.

(** X3. On an empty series the evaluator calls no model: whatever the
    triple, it returns the rmse of two empty lists, having created an
    empty [history] and an empty [predictions]. *)
Theorem empty_series_evaluation (X : series) (o : order) (w : world)
    (buf : list float) :
  heap w !! base X = Some buf ->
  window X buf = [] ->
  evaluate_arima_models X o w
  = (Ok (rmse [] []),
     World (heap w ++ [[]; []]) (stdout w) (trace w ++ [EvalCall o])).
Proof.
  intros Hbuf Hempty.
  rewrite (evaluate_run X o w buf Hbuf), Hempty.
  unfold evaluate_on, evaluate_trace, run_walk.
  by rewrite take_nil, drop_nil.
Qed.

(** ** Further properties of the grid search *)

Lemma improvements_improving (xs : list float) (l : list order) :
  forall b, improvements xs l b = map improve_line (improving xs l b).
Proof.
  induction l as [| o l IH]; intros b; [done |].
  cbn [improvements improving].
  destruct (evaluate_on xs o) as [err | e]; [| apply IH].
  destruct (err <? fst b)%float; [| apply IH].
  cbn [map]. by rewrite IH.
Qed.

Lemma improving_sublist (xs : list float) (l : list order) :
  forall b, sublist (map fst (improving xs l b)) l.
Proof.
  induction l as [| o l IH]; intros b; [constructor |].
  cbn [improving].
  destruct (evaluate_on xs o) as [err | e]; [| by apply sublist_cons].
  destruct (err <? fst b)%float; [| by apply sublist_cons].
  cbn [map fst]. by apply sublist_skip.
Qed.

Lemma improving_evaluated (xs : list float) (l : list order) :
  forall b o e, (o, e) ∈ improving xs l b -> evaluate_on xs o = Ok e.
Proof.
  induction l as [| o1 l IH]; intros b o e Hin; [by apply elem_of_nil in Hin |].
  cbn [improving] in Hin.
  destruct (evaluate_on xs o1) as [err | x] eqn:He; [| by eapply IH].
  destruct (err <? fst b)%float; [| by eapply IH].
  apply elem_of_cons in Hin as [[= -> ->] | Hin]; [done | by eapply IH].
Qed.

Lemma improving_descending (xs : list float) (l : list order) :
  forall b, descending (fst b) (map snd (improving xs l b)).
Proof.
  induction l as [| o l IH]; intros b; [done |].
  cbn [improving].
  destruct (evaluate_on xs o) as [err | e]; [| apply IH].
  destruct (err <? fst b)%float eqn:Hlt; [| apply IH].
  cbn [map snd descending]. split; [done |]. apply (IH (err, Some o)).
Qed.

Lemma best_after_last_improving (xs : list float) (l : list order) :
  forall b,
    best_after xs l b
    = match last (improving xs l b) with
      | Some (o, e) => (e, Some o)
      | None => b
      end.
Proof.
  induction l as [| o l IH]; intros b; [done |].
  cbn [best_after fold_left improving]. fold (best_after xs l (update xs b o)).
  unfold update.
  destruct (evaluate_on xs o) as [err | e]; [| apply IH].
  destruct (err <? fst b)%float; [| apply IH].
  rewrite IH, last_cons.
  by destruct (last (improving xs l (err, Some o))) as [[o' e'] |].
Qed.

(** X5. What a search prints is one line per improving candidate, in the
    order of the enumeration, and then the final line.  The candidates of
    those lines are a subsequence of the candidates, each line shows the
    error its candidate evaluates to, the errors shown go strictly down
    from below plus infinity, and the final line repeats the last of
    them, or shows no configuration and plus infinity when there is
    none. *)
Theorem progress_lines (dataset : series)
    (p_values d_values q_values : list nat) (w : world) (buf : list float) :
  heap w !! base dataset = Some buf ->
  let xs := map astype_float32 (window dataset buf) in
  let l := candidates p_values d_values q_values in
  let r := evaluate_models dataset p_values d_values q_values w in
  let imps := improving xs l (infinity, None) in
  stdout (snd r)
  = stdout w ++ map improve_line imps
      ++ [final_line match last imps with
                     | Some (o, e) => (e, Some o)
                     | None => (infinity, None)
                     end] /\
  sublist (map fst imps) l /\
  length imps <= length l /\
  (forall o e, (o, e) ∈ imps -> evaluate_on xs o = Ok e) /\
  descending infinity (map snd imps).
Proof.
  intros Hbuf xs l r imps. unfold r.
  rewrite (evaluate_models_run _ _ _ _ _ _ Hbuf). fold xs l.
  cbn [snd stdout].
  rewrite improvements_improving, best_after_last_improving. fold imps.
  split; [done |].
  pose proof (improving_sublist xs l (infinity, None)) as Hsub. fold imps in Hsub.
  split; [done |]. split.
  { apply sublist_length in Hsub. by rewrite length_map in Hsub. }
  split; [apply improving_evaluated |].
  apply (improving_descending xs l (infinity, None)).
Qed.

Lemma length_fitted_walk_trace (o : order) :
  forall test hs, length (fitted (walk_trace o test hs)) = length (walk_trace o test hs).
Proof.
  induction test as [| x rest IH]; intros hs; [done |].
  cbn [walk_trace]. unfold fitted in *. cbn [omap list_omap length].
  destruct (ARIMA hs o); [by rewrite IH | done].
Qed.

Lemma fitted_app (tr1 tr2 : list event) :
  fitted (tr1 ++ tr2) = fitted tr1 ++ fitted tr2.
Proof. apply omap_app. Qed.

Lemma length_fitted_evaluate_trace (xs : list float) (o : order) :
  length (fitted (evaluate_trace xs o))
  = length (walk_trace o (drop (train_size (length xs)) xs)
              (take (train_size (length xs)) xs)).
Proof. apply (length_fitted_walk_trace o). Qed.

Lemma length_fitted_search_trace (xs : list float) (l : list order) :
  let m := length xs - train_size (length xs) in
  length (fitted (search_trace xs l)) <= length l * m /\
  ((forall o t, o ∈ l -> t < m ->
      ARIMA (take (train_size (length xs) + t) xs) o <> None) ->
   length (fitted (search_trace xs l)) = length l * m).
Proof.
  intros m. unfold search_trace.
  induction l as [| o l [IHle IHeq]]; [done |].
  cbn [flat_map length].
  rewrite fitted_app, length_app, length_fitted_evaluate_trace. split.
  - pose proof (length_walk_trace o (drop (train_size (length xs)) xs)
                  (take (train_size (length xs)) xs)) as Hle.
    rewrite length_drop in Hle. fold m in Hle. lia.
  - intros Hfit. rewrite walk_trace_ok.
    + rewrite length_map, length_seq, length_drop. fold m.
      rewrite IHeq; [lia |].
      intros o' t Ho'. apply Hfit. by right.
    + intros i Hi. rewrite take_split. rewrite length_drop in Hi.
      apply Hfit; [left | done].
Qed.

(** X6. A search fits the model at most once per candidate and test
    observation, and exactly so often when no fit fails: the model is
    fitted [|p_values| * |d_values| * |q_values| * (length - split)]
    times, from scratch each time. *)
Theorem search_fit_count (dataset : series)
    (p_values d_values q_values : list nat) (w : world) (buf : list float) :
  heap w !! base dataset = Some buf ->
  let xs := map astype_float32 (window dataset buf) in
  let split := train_size (length xs) in
  let l := candidates p_values d_values q_values in
  let r := evaluate_models dataset p_values d_values q_values w in
  let product := length p_values * length d_values * length q_values in
  length (fitted (trace (snd r)))
  <= length (fitted (trace w)) + product * (length xs - split) /\
  ((forall o t, o ∈ l -> t < length xs - split ->
      ARIMA (take (split + t) xs) o <> None) ->
   length (fitted (trace (snd r)))
   = length (fitted (trace w)) + product * (length xs - split)).
Proof.
  intros Hbuf xs split l r product. unfold r.
  rewrite (evaluate_models_run _ _ _ _ _ _ Hbuf). fold xs l.
  cbn [snd trace]. rewrite fitted_app, length_app.
  destruct (length_fitted_search_trace xs l) as [Hle Heq].
  unfold product. rewrite <- length_candidates. fold l. fold split in Hle, Heq.
  split; [lia |]. intros Hfit. rewrite (Heq Hfit). lia.
Qed.

(** X7. During a search the model is called only with triples of the
    candidate product and only on prefixes, of at least [split]
    observations, of the float32 copy of the dataset: it never sees the
    values before the coercion, nor the last observation. *)
Theorem search_fits_on_float32_copy (dataset : series)
    (p_values d_values q_values : list nat) (w : world) (buf : list float) :
  heap w !! base dataset = Some buf ->
  let xs := map astype_float32 (window dataset buf) in
  let split := train_size (length xs) in
  let l := candidates p_values d_values q_values in
  let r := evaluate_models dataset p_values d_values q_values w in
  exists calls,
    trace (snd r) = trace w ++ calls /\
    forall h o, FitCall h o ∈ calls ->
      o ∈ l /\
      exists t, t < length xs - split /\ h = take (split + t) xs.
Proof.
  intros Hbuf xs split l r. unfold r.
  rewrite (evaluate_models_run _ _ _ _ _ _ Hbuf). fold xs l.
  cbn [snd trace]. exists (search_trace xs l). split; [done |].
  intros h o Hin. unfold search_trace in Hin.
  apply list_elem_of_In, in_flat_map in Hin as (o' & Ho' & Hin).
  apply list_elem_of_In in Ho', Hin.
  unfold evaluate_trace in Hin. fold split in Hin.
  apply elem_of_cons in Hin as [[=] | Hin].
  apply list_elem_of_lookup in Hin as [t Ht].
  destruct (walk_trace_lookup o' _ _ _ _ Ht) as [Hlt [= -> ->]].
  split; [done |]. exists t. rewrite length_drop in Hlt.
  split; [done |]. apply take_split.
Qed.

(** ** No look-ahead *)

(** Two walks from the same state over test suffixes that agree on their
    first [n] observations make the same first [n + 1] calls of the model
    and the same first [n + 1] predictions. *)
Lemma walk_agree (o : order) :
  forall (n : nat) (test test' hs ps : list float),
    take n test = take n test' -> n < length test -> n < length test' ->
    take (S n) (walk_trace o test hs) = take (S n) (walk_trace o test' hs) /\
    take (length ps + S n) (snd (walk_forward o test hs ps))
    = take (length ps + S n) (snd (walk_forward o test' hs ps)).
Proof.
  induction n as [| n IH]; intros test test' hs ps Htake Hn Hn';
    destruct test as [| x rest]; destruct test' as [| x' rest'];
    try (simpl in Hn, Hn'; lia).
  - cbn [walk_trace walk_forward]. split; [done |].
    destruct (ARIMA hs o) as [yhat |]; [| done].
    destruct (walk_forward_grows o rest (hs ++ [x]) (ps ++ [yhat]))
      as (k & preds & _ & _ & _ & ->).
    destruct (walk_forward_grows o rest' (hs ++ [x']) (ps ++ [yhat]))
      as (k' & preds' & _ & _ & _ & ->).
    replace (length ps + 1) with (length (ps ++ [yhat]))
      by (rewrite length_app; simpl; lia).
    by rewrite !take_app_length.
  - cbn [take] in Htake. injection Htake as <- Htake.
    cbn [walk_trace walk_forward].
    destruct (ARIMA hs o) as [yhat |]; [| done].
    destruct (IH rest rest' (hs ++ [x]) (ps ++ [yhat]) Htake) as [Htr Hps].
    { simpl in Hn. lia. }
    { simpl in Hn'. lia. }
    split.
    + cbn [take]. by rewrite Htr.
    + rewrite length_app in Hps. cbn [length] in Hps.
      by replace (length ps + S (S n)) with (length ps + 1 + S n) by lia.
Qed.

(** X8. The forecast of step [t] is made without the observations from
    step [t] on: two evaluations of live series of the same length that
    agree on their first [split + t] observations call the model on the
    same histories up to and including step [t], and make the same
    predictions up to and including step [t]. *)
Theorem no_look_ahead (X X' : series) (o : order) (w w' : world)
    (buf buf' : list float) (t : nat) :
  heap w !! base X = Some buf ->
  heap w' !! base X' = Some buf' ->
  let xs := window X buf in
  let xs' := window X' buf' in
  let split := train_size (length xs) in
  let r := evaluate_arima_models X o w in
  let r' := evaluate_arima_models X' o w' in
  length xs' = length xs ->
  t < length xs - split ->
  take (split + t) xs' = take (split + t) xs ->
  take (S t) (fitted (drop (length (trace w)) (trace (snd r))))
  = take (S t) (fitted (drop (length (trace w')) (trace (snd r')))) /\
  exists ps ps',
    heap (snd r) !! S (length (heap w)) = Some ps /\
    heap (snd r') !! S (length (heap w')) = Some ps' /\
    take (S t) ps = take (S t) ps'.
Proof.
  intros Hbuf Hbuf' xs xs' split r r' Hlen Ht Hsame. unfold r, r'.
  rewrite (evaluate_run X o w buf Hbuf), (evaluate_run X' o w' buf' Hbuf').
  fold xs xs'. unfold evaluate_trace, run_walk. rewrite Hlen. fold split.
  assert (Htrain : take split xs' = take split xs).
  { apply (f_equal (take split)) in Hsame.
    by rewrite !take_take, !Nat.min_l in Hsame by lia. }
  assert (Htest : take t (drop split xs) = take t (drop split xs')).
  { by rewrite !take_drop_commute, Hsame. }
  destruct (walk_agree o t (drop split xs) (drop split xs') (take split xs) [] Htest)
    as [Htr Hps].
  { by rewrite length_drop. }
  { rewrite length_drop, Hlen. done. }
  rewrite Htrain.
  destruct (walk_forward o (drop split xs) (take split xs) []) as [[res hs] ps].
  destruct (walk_forward o (drop split xs') (take split xs) []) as [[res' hs'] ps'].
  cbn [snd trace heap length] in *. rewrite !drop_app_length.
  split.
  - unfold fitted. cbn [omap list_omap].
    fold (fitted (walk_trace o (drop split xs) (take split xs))).
    fold (fitted (walk_trace o (drop split xs') (take split xs))).
    apply (f_equal fitted) in Htr.
    assert (Hfit : forall tr, (forall ev, ev ∈ tr -> exists h, ev = FitCall h o) ->
              take (S t) (fitted tr) = fitted (take (S t) tr)).
    { clear. intros tr. generalize (S t). induction tr as [| ev tr IH]; intros n Hall.
      - by destruct n.
      - destruct n as [| n]; [done |].
        destruct (Hall ev ltac:(left)) as [h ->].
        unfold fitted in *. cbn [take omap list_omap]. f_equal.
        apply IH. intros ev' Hev'. apply Hall. by right. }
    rewrite !Hfit by apply walk_trace_orders. exact Htr.
  - exists ps, ps'. by rewrite !lookup_fresh1.
Qed.

(** ** The product of the candidates *)

Lemma elem_of_candidates (p_values d_values q_values : list nat) (p d q : nat) :
  (p, d, q) ∈ candidates p_values d_values q_values
  <-> p ∈ p_values /\ d ∈ d_values /\ q ∈ q_values.
Proof.
  unfold candidates. rewrite !list_elem_of_In, in_flat_map. split.
  - intros (p' & Hp & Hin). apply in_flat_map in Hin as (d' & Hd & Hin).
    apply in_map_iff in Hin as (q' & [= -> -> ->] & Hq). done.
  - intros (Hp & Hd & Hq). exists p. split; [done |].
    apply in_flat_map. exists d. split; [done |].
    apply in_map_iff. by exists q.
Qed.

Lemma NoDup_candidates (p_values d_values q_values : list nat) :
  NoDup p_values -> NoDup d_values -> NoDup q_values ->
  NoDup (candidates p_values d_values q_values).
Proof.
  intros Hp Hd Hq. unfold candidates.
  induction Hp as [| p ps Hnotin Hps IH]; [constructor |].
  cbn [flat_map]. apply NoDup_app. split; [| split; [| exact IH]].
  - clear IH Hnotin Hps. induction Hd as [| d ds Hnotin Hds IH]; [constructor |].
    cbn [flat_map]. apply NoDup_app. split; [| split; [| exact IH]].
    + assert (Hinj : Inj (=) (=) (fun q : nat => (p, d, q)))
        by (intros q1 q2 [=]; done).
      by apply (NoDup_fmap_2 (fun q : nat => (p, d, q))).
    + intros [[p' d'] q'] Hin Hin'.
      apply list_elem_of_In, in_map_iff in Hin as (q1 & [= -> -> ->] & _).
      apply list_elem_of_In, in_flat_map in Hin' as (d2 & Hd2 & Hin').
      apply in_map_iff in Hin' as (q2 & [= -> ->] & _).
      by apply Hnotin, list_elem_of_In.
  - intros [[p' d'] q'] Hin Hin'.
    apply list_elem_of_In, in_flat_map in Hin as (d1 & _ & Hin).
    apply in_map_iff in Hin as (q1 & [= -> -> ->] & _).
    apply (elem_of_candidates ps d_values q_values) in Hin' as [Hin' _].
    done.
Qed.

(** X9. The triples a search evaluates are those with [p] in
    [p_values], [d] in [d_values] and [q] in [q_values], whatever the
    lists; and when none of the three lists repeats a value no triple is
    evaluated twice. *)
Theorem each_triple_once (dataset : series)
    (p_values d_values q_values : list nat) (w : world) (buf : list float) :
  heap w !! base dataset = Some buf ->
  let r := evaluate_models dataset p_values d_values q_values w in
  exists calls,
    evaluated (trace (snd r)) = evaluated (trace w) ++ calls /\
    (forall p d q,
       (p, d, q) ∈ calls <-> p ∈ p_values /\ d ∈ d_values /\ q ∈ q_values) /\
    (NoDup p_values -> NoDup d_values -> NoDup q_values -> NoDup calls).
Proof.
  intros Hbuf r. unfold r.
  rewrite (evaluate_models_run _ _ _ _ _ _ Hbuf). cbn [snd trace].
  exists (candidates p_values d_values q_values).
  split; [| split; [apply elem_of_candidates | apply NoDup_candidates]].
  unfold evaluated. rewrite omap_app. f_equal. apply evaluated_search_trace.
Qed.

(** ** The best error and the order of the candidates *)

Lemma SFltb_numbers (a b : spec_float) :
  SFltb a b = true -> SFeqb a a = true /\ SFeqb b b = true.
Proof.
  unfold SFltb, SFeqb, SFcompare.
  destruct a as [sa | sa | | sa ma ea], b as [sb | sb | | sb mb eb];
    repeat match goal with s : bool |- _ => destruct s end;
    try discriminate; intros _; split; try reflexivity.
  all: change (Pos.compare_cont Eq) with Pos.compare.
  all: by rewrite Z.compare_refl, Pos.compare_refl.
Qed.

Lemma SF_trichotomy (a b : spec_float) :
  SFeqb a a = true -> SFeqb b b = true ->
  SFltb a b = false -> SFltb b a = false -> SFeqb a b = true.
Proof.
  unfold SFltb, SFeqb, SFcompare.
  destruct a as [sa | sa | | sa ma ea], b as [sb | sb | | sb mb eb];
    repeat match goal with s : bool |- _ => destruct s end;
    try discriminate; try reflexivity.
  all: change (Pos.compare_cont Eq) with Pos.compare.
  all: intros _ _.
  all: destruct (Z.compare_spec ea eb), (Z.compare_spec eb ea);
    try discriminate; try reflexivity; try lia.
  all: destruct (Pos.compare_spec ma mb), (Pos.compare_spec mb ma);
    try discriminate; try reflexivity; try lia.
Qed.

(** A float below another is a number, and so is the other; two numbers
    neither of which is below the other are equal for [==]. *)
Lemma ltb_numbers (x y : float) :
  (x <? y)%float = true -> (x =? x)%float = true /\ (y =? y)%float = true.
Proof. rewrite ltb_spec, !FloatAxioms.eqb_spec. apply SFltb_numbers. Qed.

Lemma ltb_trichotomy (x y : float) :
  (x =? x)%float = true -> (y =? y)%float = true ->
  (x <? y)%float = false -> (y <? x)%float = false -> (x =? y)%float = true.
Proof. rewrite !ltb_spec, !FloatAxioms.eqb_spec. apply SF_trichotomy. Qed.

Lemma infinity_not_below (x : float) : (infinity <? x)%float = false.
Proof.
  rewrite ltb_spec. change (Prim2SF infinity) with (S754_infinity false).
  unfold SFltb, SFcompare. by destruct (Prim2SF x) as [s | [|] | | s m e].
Qed.

(** The candidate [first_best] singles out is unique. *)
Lemma first_best_unique (xs : list float) (l : list order)
    (i i' : nat) (o o' : order) (e e' : float) :
  (e =? e)%float = true -> (e' =? e')%float = true ->
  first_best xs l i o e -> first_best xs l i' o' e' ->
  i = i' /\ o = o' /\ e = e'.
Proof.
  intros Hn Hn' (Hi & He & Hmin & Hfirst) (Hi' & He' & Hmin' & Hfirst').
  assert (Heq : (e =? e')%float = true).
  { apply ltb_trichotomy; try done.
    - by apply (Hmin' i o e).
    - by apply (Hmin i' o' e'). }
  assert (Heq' : (e' =? e)%float = true).
  { apply ltb_trichotomy; try done.
    - by apply (Hmin i' o' e').
    - by apply (Hmin' i o e). }
  destruct (Nat.lt_trichotomy i i') as [Hlt | [-> | Hlt]].
  - destruct (Hfirst' i o e Hlt Hi He) as [Hne _]. by rewrite Heq in Hne.
  - rewrite Hi in Hi'. injection Hi' as ->.
    rewrite He in He'. by injection He' as ->.
  - destruct (Hfirst i' o' e' Hlt Hi' He') as [Hne _]. by rewrite Heq' in Hne.
Qed.

(** The best error of two lists with the same candidates. *)
Lemma best_error_same_candidates (xs : list float) (l l' : list order) :
  (forall o, o ∈ l <-> o ∈ l') ->
  let b := best_after xs l (infinity, None) in
  let b' := best_after xs l' (infinity, None) in
  (fst b =? fst b')%float = true /\ (snd b = None <-> snd b' = None).
Proof.
  intros Hsame b b'. subst b b'.
  destruct (best_after_spec xs l (infinity, None))
    as [[-> Hno] | (i & o & e & -> & Hlt & Hi & He & Hmin & _)];
  destruct (best_after_spec xs l' (infinity, None))
    as [[-> Hno'] | (i' & o' & e' & -> & Hlt' & Hi' & He' & Hmin' & _)];
  cbn [fst snd] in *.
  - done.
  - exfalso. apply list_elem_of_lookup_2, Hsame, list_elem_of_lookup_1 in Hi' as [j Hj].
    by rewrite (Hno j o' e' Hj He') in Hlt'.
  - exfalso. apply list_elem_of_lookup_2, Hsame, list_elem_of_lookup_1 in Hi as [j Hj].
    by rewrite (Hno' j o e Hj He) in Hlt.
  - split; [| done].
    destruct (ltb_numbers _ _ Hlt) as [Hn _], (ltb_numbers _ _ Hlt') as [Hn' _].
    apply ltb_trichotomy; try done.
    + pose proof Hi as Hin.
      apply list_elem_of_lookup_2, Hsame, list_elem_of_lookup_1 in Hin as [j Hj].
      by apply (Hmin' j o e).
    + pose proof Hi' as Hin.
      apply list_elem_of_lookup_2, Hsame, list_elem_of_lookup_1 in Hin as [j Hj].
      by apply (Hmin j o' e').
Qed.

(** X10. The best error a search reports depends on which values are
    candidates, not on their order nor on repetitions: two searches of the
    same dataset whose [p], [d] and [q] lists hold the same values end
    with final lines whose errors are equal for [==], and both or neither
    report a configuration. *)
Theorem best_error_order_independent (dataset : series)
    (p_values d_values q_values p_values' d_values' q_values' : list nat)
    (w : world) (buf : list float) :
  heap w !! base dataset = Some buf ->
  (forall p, p ∈ p_values <-> p ∈ p_values') ->
  (forall d, d ∈ d_values <-> d ∈ d_values') ->
  (forall q, q ∈ q_values <-> q ∈ q_values') ->
  let r := evaluate_models dataset p_values d_values q_values w in
  let r' := evaluate_models dataset p_values' d_values' q_values' w in
  exists b b' : best,
    last (stdout (snd r)) = Some (final_line b) /\
    last (stdout (snd r')) = Some (final_line b') /\
    (fst b =? fst b')%float = true /\
    (snd b = None <-> snd b' = None).
Proof.
  intros Hbuf Hp Hd Hq r r'. unfold r, r'.
  rewrite !(evaluate_models_run _ _ _ _ _ _ Hbuf). cbn [snd stdout].
  eexists _, _. rewrite !app_assoc, !last_snoc.
  split; [done |]. split; [done |].
  apply best_error_same_candidates.
  intros [[p d] q]. rewrite !elem_of_candidates. by rewrite Hp, Hd, Hq.
Qed.

(** ** Searching a grid in two parts *)

(** Continuing a search from a Best Result [b] over the candidates [l]
    gives the result of a fresh search over [l] when that one's error is
    strictly below [b]'s, and [b] otherwise. *)
Lemma best_after_merge (xs : list float) (l : list order) (b : best) :
  fst b = infinity \/ (fst b <? infinity)%float = true ->
  best_after xs l b
  = (let g := best_after xs l (infinity, None) in
     if (fst g <? fst b)%float then g else b).
Proof.
  intros Hb. cbn zeta.
  assert (Hinf : forall e, (e <? fst b)%float = true -> (e <? infinity)%float = true).
  { intros e He. destruct Hb as [<- | Hb]; [done | exact (ltb_trans _ _ _ He Hb)]. }
  destruct (best_after_spec xs l (infinity, None))
    as [[-> Hno] | (i2 & o2 & e2 & -> & Hlt2 & Hfb2)];
  destruct (best_after_spec xs l b)
    as [[-> Hno'] | (i1 & o1 & e1 & -> & Hlt1 & Hfb1)];
  cbn [fst snd] in *.
  - by rewrite infinity_not_below.
  - exfalso. destruct Hfb1 as (Hi & He & _).
    pose proof (Hinf e1 Hlt1) as Habs.
    by rewrite (Hno i1 o1 e1 Hi He) in Habs.
  - destruct Hfb2 as (Hi & He & _). by rewrite (Hno' i2 o2 e2 Hi He).
  - destruct (ltb_numbers _ _ Hlt1) as [Hn1 _], (ltb_numbers _ _ Hlt2) as [Hn2 _].
    destruct (first_best_unique xs l i1 i2 o1 o2 e1 e2 Hn1 Hn2 Hfb1 Hfb2)
      as (_ & -> & ->).
    by rewrite Hlt1.
Qed.

Lemma best_after_bounded (xs : list float) (l : list order) :
  let b := best_after xs l (infinity, None) in
  fst b = infinity \/ (fst b <? infinity)%float = true.
Proof.
  cbn zeta.
  destruct (best_after_spec xs l (infinity, None))
    as [[-> _] | (i & o & e & -> & Hlt & _)]; [by left | by right].
Qed.

Lemma candidates_app (p_values p_values' d_values q_values : list nat) :
  candidates (p_values ++ p_values') d_values q_values
  = candidates p_values d_values q_values ++ candidates p_values' d_values q_values.
Proof. apply flat_map_app. Qed.

(** X11. A grid may be searched in two parts: the final line of a search
    over [p_values ++ p_values'] shows the result of the search over
    [p_values'] when its error is strictly below that of the search over
    [p_values], and the result of the search over [p_values] otherwise,
    ties included. *)
Theorem search_in_two_parts (dataset : series)
    (p_values p_values' d_values q_values : list nat)
    (w : world) (buf : list float) :
  heap w !! base dataset = Some buf ->
  let r1 := evaluate_models dataset p_values d_values q_values w in
  let r2 := evaluate_models dataset p_values' d_values q_values w in
  let r := evaluate_models dataset (p_values ++ p_values') d_values q_values w in
  exists b1 b2 : best,
    last (stdout (snd r1)) = Some (final_line b1) /\
    last (stdout (snd r2)) = Some (final_line b2) /\
    last (stdout (snd r))
    = Some (final_line (if (fst b2 <? fst b1)%float then b2 else b1)).
Proof.
  intros Hbuf r1 r2 r. unfold r1, r2, r.
  rewrite !(evaluate_models_run _ _ _ _ _ _ Hbuf). cbn [snd stdout].
  eexists _, _. rewrite !app_assoc, !last_snoc.
  split; [done |]. split; [done |].
  rewrite candidates_app, best_after_app.
  by rewrite best_after_merge by apply best_after_bounded.
Qed.

(** ** The search of an empty series *)

Lemma best_after_stable (xs : list float) (c : float) (l : list order) :
  (forall o, evaluate_on xs o = Ok c) ->
  forall b, (c <? fst b)%float = false -> best_after xs l b = b.
Proof.
  intros Hc. induction l as [| o l IH]; intros b Hb; [done |].
  cbn [best_after fold_left]. unfold update. rewrite Hc, Hb. by apply IH.
Qed.

Lemma best_after_constant (xs : list float) (c : float) (l : list order) (b : best) :
  (forall o, evaluate_on xs o = Ok c) ->
  best_after xs l b
  = match l with
    | [] => b
    | o :: _ => if (c <? fst b)%float then (c, Some o) else b
    end.
Proof.
  intros Hc. destruct l as [| o l]; [done |].
  cbn [best_after fold_left]. unfold update at 2. rewrite Hc.
  destruct (c <? fst b)%float eqn:Hlt.
  - apply (best_after_stable xs c l Hc). apply ltb_irrefl.
  - by apply (best_after_stable xs c l Hc).
Qed.

(** X12. A search of an empty series calls no model: every candidate
    evaluates to the rmse of two empty lists, and the final line shows the
    first candidate with that value when it is strictly below plus
    infinity, and no configuration with plus infinity otherwise. *)
Theorem empty_series_search (dataset : series)
    (p_values d_values q_values : list nat) (w : world) (buf : list float) :
  heap w !! base dataset = Some buf ->
  window dataset buf = [] ->
  let l := candidates p_values d_values q_values in
  let r := evaluate_models dataset p_values d_values q_values w in
  fitted (trace (snd r)) = fitted (trace w) /\
  evaluated (trace (snd r)) = evaluated (trace w) ++ l /\
  last (stdout (snd r))
  = Some (final_line
            match l with
            | [] => (infinity, None)
            | o :: _ =>
                if (rmse [] [] <? infinity)%float
                then (rmse [] [], Some o) else (infinity, None)
            end).
Proof.
  intros Hbuf Hempty l r. unfold r.
  rewrite (evaluate_models_run _ _ _ _ _ _ Hbuf), Hempty. fold l.
  cbn [snd trace stdout map].
  assert (Hc : forall o, evaluate_on [] o = Ok (rmse [] [])) by done.
  split; [| split].
  - rewrite fitted_app.
    assert (Hnone : fitted (search_trace [] l) = []).
    { clear. unfold search_trace. induction l as [| o l IH]; [done |].
      cbn [flat_map]. by rewrite fitted_app, IH. }
    by rewrite Hnone, app_nil_r.
  - unfold evaluated. rewrite omap_app. f_equal. apply evaluated_search_trace.
  - rewrite app_assoc, last_snoc.
    by rewrite (best_after_constant [] (rmse [] []) l _ Hc).
Qed.

(** ** What a search can report *)

Lemma evaluate_on_is_root (xs : list float) (o : order) (e : float) :
  evaluate_on xs o = Ok e -> exists m, e = sqrt m.
Proof.
  unfold evaluate_on, rmse.
  destruct (run_walk xs o) as [[[[] | x] hs] ps]; intros [= <-]. by eexists.
Qed.

(** X13. The error in the final line of a search is never NaN and never
    below zero, whatever the model and the mean of squares return: it is
    plus infinity or the root of a mean of squares that is a number; a
    candidate whose error is NaN is never reported. *)
Theorem reported_error_is_nonnegative (dataset : series)
    (p_values d_values q_values : list nat) (w : world) (buf : list float) :
  heap w !! base dataset = Some buf ->
  let xs := map astype_float32 (window dataset buf) in
  let l := candidates p_values d_values q_values in
  let r := evaluate_models dataset p_values d_values q_values w in
  exists b : best,
    last (stdout (snd r)) = Some (final_line b) /\
    (fst b =? fst b)%float = true /\
    (0 <=? fst b)%float = true /\
    (forall o, snd b = Some o ->
       o ∈ l /\ evaluate_on xs o = Ok (fst b) /\ (fst b <? infinity)%float = true).
Proof.
  intros Hbuf xs l r. unfold r.
  rewrite (evaluate_models_run _ _ _ _ _ _ Hbuf). fold xs l. cbn [snd stdout].
  exists (best_after xs l (infinity, None)).
  rewrite app_assoc, last_snoc. split; [done |].
  destruct (best_after_spec xs l (infinity, None))
    as [[-> _] | (i & o & e & -> & Hlt & Hi & He & _)]; cbn [fst snd].
  - repeat split; try done.
  - destruct (ltb_numbers _ _ Hlt) as [Hn _].
    destruct (evaluate_on_is_root xs o e He) as [m ->].
    split; [done |]. split; [by apply sqrt_number_nonneg |].
    intros o' [= <-]. split; [by eapply list_elem_of_lookup_2 | done].
Qed.

(** X14. A search reports a configuration exactly when some candidate
    evaluates to an error strictly below plus infinity; otherwise,
    whether the candidates fail, or evaluate to NaN or to plus infinity,
    its final line shows no configuration and plus infinity. *)
Theorem configuration_reported_iff (dataset : series)
    (p_values d_values q_values : list nat) (w : world) (buf : list float) :
  heap w !! base dataset = Some buf ->
  let xs := map astype_float32 (window dataset buf) in
  let l := candidates p_values d_values q_values in
  let r := evaluate_models dataset p_values d_values q_values w in
  exists b : best,
    last (stdout (snd r)) = Some (final_line b) /\
    (snd b <> None <->
     exists o e, o ∈ l /\ evaluate_on xs o = Ok e /\ (e <? infinity)%float = true) /\
    (snd b = None -> b = (infinity, None)).
Proof.
  intros Hbuf xs l r. unfold r.
  rewrite (evaluate_models_run _ _ _ _ _ _ Hbuf). fold xs l. cbn [snd stdout].
  exists (best_after xs l (infinity, None)).
  rewrite app_assoc, last_snoc. split; [done |].
  destruct (best_after_spec xs l (infinity, None))
    as [[-> Hno] | (i & o & e & -> & Hlt & Hi & He & _)]; cbn [fst snd] in *.
  - split; [| done]. split; [done |].
    intros (o & e & Ho & He & Hlt).
    apply list_elem_of_lookup_1 in Ho as [j Hj].
    by rewrite (Hno j o e Hj He) in Hlt.
  - split; [| done]. split; [| done].
    intros _. exists o, e. split; [by eapply list_elem_of_lookup_2 | done].
Qed.

End GridSearch.

(** ** The examples *)

Lemma floor_checked_sound (fuel : nat) :
  forall z k : Z,
    floor_checked fuel z = true -> (z <= k < z + Z.of_nat fuel)%Z ->
    split_index k = (66 * k / 100)%Z.
Proof.
  induction fuel as [| fuel IH]; intros z k Hchk Hk; [lia |].
  cbn [floor_checked] in Hchk. apply andb_prop in Hchk as [Hz Hrest].
  destruct (Z.eq_dec k z) as [-> | Hne].
  - by apply Z.eqb_eq.
  - apply (IH (z + 1)%Z); [done | lia].
Qed.

(** On the lengths below [2^16] the float product truncates to the floor
    of [66 * n / 100], which leaves a test suffix from length 1 on. *)
Lemma train_size_floor (n : nat) :
  n < 2 ^ 16 -> train_size n = 66 * n / 100 /\ (0 < n -> train_size n < n).
Proof.
  intros Hn.
  assert (Hchk : floor_checked (2 ^ 16) 0 = true) by (vm_compute; reflexivity).
  assert (Hz : split_index (Z.of_nat n) = (66 * Z.of_nat n / 100)%Z).
  { apply (floor_checked_sound _ 0 _ Hchk). lia. }
  assert (Heq : train_size n = 66 * n / 100).
  { unfold train_size. rewrite Hz. apply Nat2Z.inj.
    rewrite Z2Nat.id by (apply Z.div_pos; lia).
    by rewrite Nat2Z.inj_div, Nat2Z.inj_mul. }
  split; [exact Heq |].
  intros Hpos. rewrite Heq.
  apply Nat.Div0.div_lt_upper_bound. lia.
Qed.

(** X4. A series of 2 to [2^16 - 1] observations is cut into a training
    prefix and a test suffix that are both non-empty, at
    [floor(66 * length / 100)], so every evaluation of it calls the
    model, first on the training prefix. *)
Theorem first_fit_on_training_prefix
    (ARIMA : list float -> order -> option float)
    (mse : list float -> list float -> float)
    (X : series) (o : order) (w : world) (buf : list float) :
  heap w !! base X = Some buf ->
  let xs := window X buf in
  let split := train_size (length xs) in
  2 <= length xs < 2 ^ 16 ->
  split = 66 * length xs / 100 /\
  1 <= split < length xs /\
  length (take split xs) = split /\
  exists rest,
    trace (snd (evaluate_arima_models ARIMA mse X o w))
    = trace w ++ EvalCall o :: FitCall (take split xs) o :: rest.
Proof.
  intros Hbuf xs split [Hlo Hhi].
  destruct (train_size_floor (length xs) Hhi) as [Hfloor Hlt].
  fold split in Hfloor, Hlt. specialize (Hlt ltac:(lia)).
  assert (H1 : 1 <= split).
  { rewrite Hfloor. apply Nat.div_le_lower_bound; lia. }
  split; [done |]. split; [lia |]. split; [rewrite length_take; lia |].
  rewrite (evaluate_run ARIMA mse X o w buf Hbuf). fold xs.
  unfold evaluate_trace, run_walk. fold split.
  destruct (walk_forward ARIMA o (drop split xs) (take split xs) []) as [[res hs] ps].
  cbn [snd trace].
  destruct (drop split xs) as [| x rest] eqn:Hdrop.
  - apply (f_equal length) in Hdrop. rewrite length_drop in Hdrop. simpl in Hdrop. lia.
  - cbn [walk_trace]. by eexists.
Qed.

(** The example of the specification: the series [1, ..., 10] is split at
    6, and an evaluation makes 4 predictions, one per element of the test
    suffix [7, 8, 9, 10]. *)
Example ten_observations :
  let r := evaluate_arima_models persistence mean_squares demo_series (0, 0, 0)
             demo_world in
  train_size 10 = 6 /\
  fst r = Ok 1%float /\
  heap (snd r) !! 2 = Some [6; 7; 8; 9]%float /\
  drop 6 one_to_ten = [7; 8; 9; 10]%float.
Proof. vm_compute. repeat split; reflexivity. Qed.

(** Two candidates with the same error: the first enumerated is kept. *)
Example tie_break :
  let r := evaluate_models persistence mean_squares demo_series [0] [0] [0; 1]
             demo_world in
  evaluate_on persistence mean_squares one_to_ten (0, 0, 0) = Ok 1%float /\
  evaluate_on persistence mean_squares one_to_ten (0, 0, 1) = Ok 1%float /\
  stdout (snd r)
  = [Line improve_fmt [PyOrder (0, 0, 0); PyFloat 1];
     Line final_fmt [PyOrder (0, 0, 0); PyFloat 1]].
Proof. vm_compute. repeat split; reflexivity. Qed.

Lemma evaluate_returns_error_witness :
  exists (err : float) (predictions : list float),
    fst (evaluate_arima_models persistence mean_squares demo_series (0, 1, 0)
           demo_world) = Ok err /\
    (err <? 0)%float = false /\
    length predictions = 10 - train_size 10 /\
    (forall t, t < 10 - train_size 10 ->
       persistence (take (train_size 10 + t) one_to_ten) (0, 1, 0)
       = predictions !! t).
Proof.
  destruct (evaluate_returns_error persistence mean_squares
              demo_series (0, 1, 0) demo_world one_to_ten eq_refl)
    as (err & predictions & Hr & _ & Hpos & _ & _ & _ & Hlen & Hfc & _).
  { intros t Ht. vm_compute in Ht.
    do 4 (destruct t as [| t]; [vm_compute; discriminate |]). lia. }
  exists err, predictions.
  split; [exact Hr | split; [exact Hpos | split; [exact Hlen | exact Hfc]]].
Defined.

(** With a missing value in the test suffix every fit of the persistence
    model succeeds, and the evaluator returns NaN, which is not a
    non-negative float. *)
Lemma evaluate_returns_nan :
  let r := evaluate_arima_models persistence mean_squares demo_series (0, 0, 0)
             nan_world in
  (forall t, t < 10 - train_size 10 ->
     persistence (take (train_size 10 + t) with_nan) (0, 0, 0) <> None) /\
  exists err,
    fst r = Ok err /\ is_nan err = true /\ (0 <=? err)%float = false.
Proof.
  split.
  - intros t Ht. vm_compute in Ht.
    do 4 (destruct t as [| t]; [vm_compute; discriminate |]). lia.
  - eexists. vm_compute. split; [reflexivity | split; reflexivity].
Qed.


Lemma expanding_window_witness :
  let r := evaluate_arima_models persistence mean_squares demo_series (0, 0, 0)
             demo_world in
  exists (n : nat) (fits : list event),
    trace (snd r) = EvalCall (0, 0, 0) :: fits /\
    n <= 10 - train_size 10 /\
    heap (snd r) !! 1 = Some (take (train_size 10 + n) one_to_ten) /\
    forall t ev, fits !! t = Some ev -> t < 10 - train_size 10.
Proof.
  destruct (expanding_window persistence mean_squares demo_series (0, 0, 0)
              demo_world one_to_ten eq_refl)
    as (n & fits & Htr & Hn & _ & _ & Hheap & _ & Hfits).
  exists n, fits.
  split; [exact Htr | split; [exact Hn | split; [exact Hheap |]]].
  intros t ev Hev. exact (proj1 (Hfits t ev Hev)).
Defined.

Lemma best_score_monotone_witness :
  let r := evaluate_models persistence mean_squares demo_series [0] [0; 1] [0]
             demo_world in
  last (stdout (snd r))
  = Some (final_line (best_after persistence mean_squares one_to_ten
                        [(0, 0, 0); (0, 1, 0)] (infinity, None))).
Proof.
  exact (proj2 (proj2 (proj2 (proj2
    (best_score_monotone persistence mean_squares demo_series [0] [0; 1] [0]
       demo_world one_to_ten eq_refl))))).
Defined.


Lemma search_prints_best_witness :
  let r := evaluate_models persistence mean_squares demo_series [0] [0; 1] [0]
             demo_world in
  fst r = Ok PyNone /\
  last (stdout (snd r)) = Some (Line final_fmt [PyOrder (0, 1, 0); PyFloat 0]).
Proof.
  exact (search_prints_best persistence mean_squares demo_series [0] [0; 1] [0]
           demo_world one_to_ten eq_refl).
Defined.

(** The search of the example returns [None], not the pair of the best
    configuration [(0, 1, 0)] and its error [0] that its last line
    shows. *)
Lemma returns_none_not_pair :
  let r := evaluate_models persistence mean_squares demo_series [0] [0; 1] [0]
             demo_world in
  last (stdout (snd r)) = Some (Line final_fmt [PyOrder (0, 1, 0); PyFloat 0]) /\
  fst r = Ok PyNone /\
  fst r <> Ok (PyPair (PyOrder (0, 1, 0)) (PyFloat 0)).
Proof. vm_compute. repeat split; [reflexivity .. | discriminate]. Qed.

Lemma no_success_report_witness :
  let r := evaluate_models no_fit mean_squares demo_series [0; 1] [0] [0]
             demo_world in
  fst r = Ok PyNone /\
  stdout (snd r) = [Line final_fmt [PyNone; PyFloat infinity]].
Proof.
  destruct (no_success_report no_fit mean_squares demo_series [0; 1] [0] [0]
              demo_world one_to_ten eq_refl) as (Hr & Hout & _).
  { intros o e Ho. cbv [candidates flat_map map app] in Ho.
    repeat (apply elem_of_cons in Ho as [-> | Ho]);
      [vm_compute; discriminate .. | by apply elem_of_nil in Ho]. }
  split; [exact Hr | exact Hout].
Defined.

(** A search in which no candidate succeeds and a search that finds a
    best result report in the same form: both return [None], and their
    last lines have the same format, filled with [None] and plus
    infinity in the first, with the configuration and its error in the
    second. *)
Lemma sentinel_in_same_form :
  let r_none := evaluate_models no_fit mean_squares demo_series [0] [0] [0]
                  demo_world in
  let r_found := evaluate_models persistence mean_squares demo_series [0] [0] [0]
                   demo_world in
  last (stdout (snd r_none)) = Some (Line final_fmt [PyNone; PyFloat infinity]) /\
  last (stdout (snd r_found)) = Some (Line final_fmt [PyOrder (0, 0, 0); PyFloat 1]) /\
  report_form r_none = report_form r_found.
Proof. vm_compute. repeat split; reflexivity. Qed.

Lemma empty_candidates_witness :
  let r := evaluate_models persistence mean_squares demo_series [0; 1] [] [0]
             demo_world in
  candidates [0; 1] [] [0] = [] /\
  trace (snd r) = [] /\
  stdout (snd r) = [Line final_fmt [PyNone; PyFloat infinity]].
Proof.
  destruct (empty_candidates persistence mean_squares demo_series [0; 1] [] [0]
              demo_world one_to_ten eq_refl (or_intror (or_introl eq_refl)))
    as (Hl & _ & Htr & Hout & _).
  split; [exact Hl | split; [exact Htr | exact Hout]].
Defined.

(** ** Examples for the further properties *)

Lemma evaluate_stops_at_first_failure_witness :
  let r := evaluate_arima_models (brittle 8) mean_squares demo_series (0, 0, 0)
             demo_world in
  fst r = Raise ModelError /\
  length (fitted (trace (snd r))) = 3 /\
  stdout (snd r) = [].
Proof.
  destruct (evaluate_stops_at_first_failure (brittle 8) mean_squares demo_series
              (0, 0, 0) demo_world one_to_ten 2 eq_refl)
    as (Hr & Htr & Hout & _).
  - vm_compute. lia.
  - intros i Hi. do 2 (destruct i as [| i]; [vm_compute; discriminate |]). lia.
  - reflexivity.
  - split; [exact Hr | split; [| exact Hout]].
    cbv zeta. rewrite Htr. reflexivity.
Defined.

Lemma empty_series_evaluation_witness :
  fst (evaluate_arima_models persistence mean_squares no_series (0, 0, 0) demo_world)
  = Ok (rmse mean_squares [] []).
Proof.
  exact (f_equal fst
           (empty_series_evaluation persistence mean_squares no_series (0, 0, 0)
              demo_world one_to_ten eq_refl eq_refl)).
Defined.

Lemma first_fit_on_training_prefix_witness :
  train_size 10 = 66 * 10 / 100 /\ 1 <= train_size 10 < 10.
Proof.
  destruct (first_fit_on_training_prefix persistence mean_squares demo_series
              (0, 0, 0) demo_world one_to_ten eq_refl) as (Hsplit & Hbounds & _).
  - split.
    + apply Nat.leb_le. vm_compute. reflexivity.
    + apply Nat.ltb_lt. vm_compute. reflexivity.
  - split; [exact Hsplit | exact Hbounds].
Defined.

Lemma progress_lines_witness :
  let r := evaluate_models persistence mean_squares demo_series [0; 2] [0; 1] [0]
             demo_world in
  stdout (snd r)
  = [Line improve_fmt [PyOrder (0, 0, 0); PyFloat 1];
     Line improve_fmt [PyOrder (0, 1, 0); PyFloat 0];
     Line final_fmt [PyOrder (0, 1, 0); PyFloat 0]].
Proof.
  exact (proj1 (progress_lines persistence mean_squares demo_series [0; 2] [0; 1] [0]
                  demo_world one_to_ten eq_refl)).
Defined.

Lemma search_fit_count_witness :
  let r := evaluate_models persistence mean_squares demo_series [0; 2] [0; 1] [0]
             demo_world in
  length (fitted (trace (snd r))) <= 2 * 2 * 1 * (10 - train_size 10).
Proof.
  exact (proj1 (search_fit_count persistence mean_squares demo_series [0; 2] [0; 1] [0]
                  demo_world one_to_ten eq_refl)).
Defined.

Lemma search_fits_on_float32_copy_witness :
  exists calls,
    trace (snd (evaluate_models persistence mean_squares demo_series [0] [0] [0]
                  demo_world)) = calls /\
    forall h o, FitCall h o ∈ calls -> o ∈ [(0, 0, 0)].
Proof.
  destruct (search_fits_on_float32_copy persistence mean_squares demo_series
              [0] [0] [0] demo_world one_to_ten eq_refl) as (calls & Htr & Hcalls).
  exists calls. split; [exact Htr |].
  intros h o Hin. exact (proj1 (Hcalls h o Hin)).
Defined.

Lemma no_look_ahead_witness :
  exists ps ps',
    heap (snd (evaluate_arima_models persistence mean_squares demo_series (0, 0, 0)
                 demo_world)) !! 2 = Some ps /\
    heap (snd (evaluate_arima_models persistence mean_squares demo_series (0, 0, 0)
                 other_world)) !! 2 = Some ps' /\
    take 3 ps = take 3 ps'.
Proof.
  destruct (no_look_ahead persistence mean_squares demo_series demo_series (0, 0, 0)
              demo_world other_world one_to_ten
              [1; 2; 3; 4; 5; 6; 7; 8; 90; 100]%float 2 eq_refl eq_refl eq_refl)
    as (_ & ps & ps' & Hps & Hps' & Hsame).
  - vm_compute. lia.
  - reflexivity.
  - exists ps, ps'. split; [exact Hps | split; [exact Hps' | exact Hsame]].
Defined.

Lemma each_triple_once_witness :
  exists calls,
    evaluated (trace (snd (evaluate_models persistence mean_squares demo_series
                             [0; 2; 0] [0; 1] [0] demo_world))) = calls /\
    forall p d q, (p, d, q) ∈ calls <-> p ∈ [0; 2; 0] /\ d ∈ [0; 1] /\ q ∈ [0].
Proof.
  destruct (each_triple_once persistence mean_squares demo_series [0; 2; 0] [0; 1] [0]
              demo_world one_to_ten eq_refl) as (calls & Hev & Hin & _).
  exists calls. split; [exact Hev | exact Hin].
Defined.

Lemma best_error_order_independent_witness :
  exists b b' : best,
    last (stdout (snd (evaluate_models persistence mean_squares demo_series
                         [0; 1] [0; 1] [0] demo_world))) = Some (final_line b) /\
    last (stdout (snd (evaluate_models persistence mean_squares demo_series
                         [1; 0; 0] [1; 0] [0] demo_world))) = Some (final_line b') /\
    (fst b =? fst b')%float = true.
Proof.
  destruct (best_error_order_independent persistence mean_squares demo_series
              [0; 1] [0; 1] [0] [1; 0; 0] [1; 0] [0] demo_world one_to_ten eq_refl)
    as (b & b' & Hb & Hb' & Heq & _).
  - intros p. rewrite !elem_of_cons, !elem_of_nil. tauto.
  - intros d. rewrite !elem_of_cons, !elem_of_nil. tauto.
  - tauto.
  - exists b, b'. split; [exact Hb | split; [exact Hb' | exact Heq]].
Defined.

Lemma search_in_two_parts_witness :
  exists b1 b2 : best,
    last (stdout (snd (evaluate_models persistence mean_squares demo_series
                         [0; 2] [0] [0] demo_world))) = Some (final_line b1) /\
    last (stdout (snd (evaluate_models persistence mean_squares demo_series
                         [1] [0] [0] demo_world))) = Some (final_line b2) /\
    last (stdout (snd (evaluate_models persistence mean_squares demo_series
                         ([0; 2] ++ [1]) [0] [0] demo_world)))
    = Some (final_line (if (fst b2 <? fst b1)%float then b2 else b1)).
Proof.
  exact (search_in_two_parts persistence mean_squares demo_series [0; 2] [1] [0] [0]
           demo_world one_to_ten eq_refl).
Defined.

Lemma empty_series_search_witness :
  let r := evaluate_models persistence mean_squares no_series [0; 1] [0] [0]
             demo_world in
  fitted (trace (snd r)) = [] /\
  evaluated (trace (snd r)) = [(0, 0, 0); (1, 0, 0)].
Proof.
  destruct (empty_series_search persistence mean_squares no_series [0; 1] [0] [0]
              demo_world one_to_ten eq_refl eq_refl) as (Hfit & Hev & _).
  split; [exact Hfit | exact Hev].
Defined.

Lemma reported_error_is_nonnegative_witness :
  exists b : best,
    last (stdout (snd (evaluate_models persistence mean_squares demo_series
                         [0; 2] [0; 1] [0] demo_world))) = Some (final_line b) /\
    (0 <=? fst b)%float = true.
Proof.
  destruct (reported_error_is_nonnegative persistence mean_squares demo_series
              [0; 2] [0; 1] [0] demo_world one_to_ten eq_refl)
    as (b & Hb & _ & Hpos & _).
  exists b. split; [exact Hb | exact Hpos].
Defined.

Lemma configuration_reported_iff_witness :
  exists b : best,
    last (stdout (snd (evaluate_models no_fit mean_squares demo_series
                         [0; 2] [0; 1] [0] demo_world))) = Some (final_line b) /\
    (snd b = None -> b = (infinity, None)).
Proof.
  destruct (configuration_reported_iff no_fit mean_squares demo_series
              [0; 2] [0; 1] [0] demo_world one_to_ten eq_refl)
    as (b & Hb & _ & Hnone).
  exists b. split; [exact Hb | exact Hnone].
Defined.
